(** * recipe-chatbot: synthetic query pipeline and chatbot wrapper

    A shallow embedding of
      - homeworks/hw2/gen_mixed_synth_queries.py  (module [Hw2])
      - backend/utils.py                          (module [Backend])
    followed by the properties established about them.

    Effects of the Python code are made explicit:
      - output, provider calls, sleeps and file-system operations are
        recorded, in program order, in a trace of [Event]s;
      - exceptions are the [Raised] branch of [result];
      - everything the outside world decides (what the provider answers on
        each attempt, the order in which futures complete, the random
        draws of the shuffle, the clock) is an explicit oracle argument;
      - paths are pathlib's POSIX paths, a root and components, joined and
        split as pathlib does; the code that looks at the disk is handed
        the file system, the directories and files there are by the text
        of their paths;
      - the list objects handled by the chatbot wrapper live in a store, so
        that aliasing and mutation can be stated. *)

From Stdlib Require Import Ascii String.
From stdpp Require Import base strings list gmap sets pretty.

Local Open Scope string_scope.
Local Open Scope nat_scope.
Local Open Scope list_scope.
Local Open Scope stdpp_scope.

(* ===================================================================== *)
(** * Part I: the programs                                                *)
(* ===================================================================== *)

(** ** Python basics shared by both files *)
Module Py.

(** An exception object; only its message ([str(e)]) is observed. *)
Inductive exn := Exception (msg : string).

Definition str_exn (e : exn) : string :=
  match e with Exception msg => msg end.

(** A conversation entry: a dict with the keys "role" and "content". *)
Record message := Message { role : string; content : string }.

#[global] Instance message_eq_dec : EqDecision message.
Proof. solve_decision. Defined.

(** What one call of [completion] does: raise, or answer with a body
    (the text found at [response.choices[0].message.content]). *)
Inductive outcome := Raises (e : exn) | Responds (body : string).

(** How a Python call ends. *)
Inductive result (A : Type) := Returned (a : A) | Raised (e : exn).
Arguments Returned {A} a.
Arguments Raised {A} e.

Definition newline : string := String "010"%char "".

(** [str(n)] for a non-negative int. *)
Definition str_nat (n : nat) : string := pretty n.

Fixpoint zeros (n : nat) : string :=
  match n with
  | O => ""
  | S n' => String "0"%char (zeros n')
  end.

(** [f"{n:03d}"] for a non-negative int: decimal digits, padded on the
    left with zeros up to width 3 (longer numbers are left as they are). *)
Definition fmt_03d (n : nat) : string :=
  zeros (3 - String.length (str_nat n)) +:+ str_nat n.

(** A non-negative int in decimal, padded on the left with zeros up to
    [width] digits, as [strftime] writes the fields of a date. *)
Definition zfill (width n : nat) : string :=
  zeros (width - String.length (str_nat n)) +:+ str_nat n.

(** [s.split(sep)]; [cur] holds the characters of the field being read. *)
Fixpoint split (sep : ascii) (cur s : string) : list string :=
  match s with
  | EmptyString => [cur]
  | String c s' =>
      if decide (c = sep) then cur :: split sep "" s'
      else split sep (cur +:+ String c "") s'
  end.

(** [c in s] for a character [c]. *)
Fixpoint contains (c : ascii) (s : string) : bool :=
  match s with
  | EmptyString => false
  | String c' s' => bool_decide (c' = c) || contains c s'
  end.

End Py.

(** ** homeworks/hw2/gen_mixed_synth_queries.py *)
Module Hw2.
Import Py.

(** *** Pydantic models *)

Record DimensionTuple := {
  DietaryNeedsOrRestrictions : string;
  AvailableIngredientsFocus : string;
  CuisinePreference : string;
  SkillLevelEffort : string;
  TimeAvailability : string;
  QueryStyleAndDetail : string;
  UserContextOrScenario : string;
  UserAbilityOrAccessibility : string
}.

#[global] Instance DimensionTuple_eq_dec : EqDecision DimensionTuple.
Proof. solve_decision. Defined.

Record QueryWithDimensions := {
  id : string;
  query : string;
  dimension_tuple : option DimensionTuple;
  query_type : string;
  is_realistic_and_kept : Z;
  notes_for_filtering : string
}.

#[global] Instance QueryWithDimensions_eq_dec : EqDecision QueryWithDimensions.
Proof. solve_decision. Defined.

(** The constructor call [QueryWithDimensions(id=.., query=..,
    dimension_tuple=.., query_type=..)]: the two remaining fields take the
    defaults of the class body: 1 for [is_realistic_and_kept: int] and
    the empty string for [notes_for_filtering: str]. *)
Definition new_QueryWithDimensions
    (id query : string) (dimension_tuple : option DimensionTuple)
    (query_type : string) : QueryWithDimensions :=
  {| id := id; query := query; dimension_tuple := dimension_tuple;
     query_type := query_type;
     is_realistic_and_kept := 1; notes_for_filtering := "" |}.

Record DimensionTuplesList := { tuples : list DimensionTuple }.
Record QueriesList := { queries : list string }.

(** One row of the data frame written by [save_queries_to_csv]; the
    fields are its six columns. *)
Record Row := {
  col_id : string;
  col_query : string;
  col_dimension_tuple_json : option string;
  col_query_type : string;
  col_is_realistic_and_kept : Z;
  col_notes_for_filtering : string
}.

(** *** pathlib, POSIX flavour *)

(** A [pathlib.Path] as pathlib holds it: the root (empty, "/" or "//")
    and the components after it ([p.parts] without the root). *)
Record Path := { root : string; parts : list string }.

(** [posixpath.splitroot]: the root of a path string and what follows it.
    One leading slash, or three and more, make the root "/"; exactly two
    make the root "//". *)
Definition splitroot (p : string) : string * string :=
  match p with
  | String c1 rest1 =>
      if decide (c1 = "/"%char) then
        match rest1 with
        | String c2 rest2 =>
            if decide (c2 = "/"%char) then
              match rest2 with
              | String c3 _ =>
                  if decide (c3 = "/"%char) then ("/", rest1)
                  else ("//", rest2)
              | EmptyString => ("//", rest2)
              end
            else ("/", rest1)
        | EmptyString => ("/", rest1)
        end
      else ("", p)
  | EmptyString => ("", p)
  end.

(** [Path(p)] for a string: the text after the root is cut at the slashes;
    empty components and "." are dropped. *)
Definition Path_of_str (p : string) : Path :=
  let '(root, rel) := splitroot p in
  {| root := root;
     parts := filter (λ x, x ≠ "" ∧ x ≠ ".") (split "/"%char "" rel) |}.

(** [p / key] for a string [key]: a [key] with a root replaces [p], any
    other is read as a path and its components come after those of [p]. *)
Definition joinpath (p : Path) (key : string) : Path :=
  let q := Path_of_str key in
  if decide (root q = "")
  then {| root := root p; parts := parts p ++ parts q |}
  else q.

(** [p.parent]: the path without its last component; a path without
    components is its own parent. *)
Definition parent (p : Path) : Path :=
  match parts p with
  | [] => p
  | _ :: _ => {| root := root p; parts := removelast (parts p) |}
  end.

(** [p.parents], nearest first. *)
Definition parents (p : Path) : list Path :=
  (λ k, {| root := root p; parts := take k (parts p) |}) <$>
  reverse (seq 0 (length (parts p))).

(** [p.name]: the last component, or the empty string. *)
Definition name (p : Path) : string := default "" (last (parts p)).

(** [str(p)]. *)
Definition str_path (p : Path) : string :=
  let s := root p +:+ String.concat "/" (parts p) in
  if decide (s = "") then "." else s.

(** What the code may hand where a path is wanted: a string or a
    [Path]; [Path(x)] makes a [Path] of either. *)
Inductive PathLike := AsStr (s : string) | AsPath (p : Path).

Definition Path_of (x : PathLike) : Path :=
  match x with
  | AsStr s => Path_of_str s
  | AsPath p => p
  end.

(** *** The clock *)

(** What [datetime.datetime.now()] reads. *)
Record datetime := {
  year : nat; month : nat; day : nat;
  hour : nat; minute : nat; second : nat
}.

(** [d.strftime("%Y%m%d_%H%M%S")]: the year on four digits, the other
    fields on two.  (A year before 1000, which no clock reads, is padded
    on some platforms only; it is padded here.) *)
Definition strftime (d : datetime) : string :=
  zfill 4 (year d) +:+ zfill 2 (month d) +:+ zfill 2 (day d) +:+ "_" +:+
  zfill 2 (hour d) +:+ zfill 2 (minute d) +:+ zfill 2 (second d).

(** *** Effects *)

(** The trace records what is written to standard output, the calls of
    the provider, the sleeps and the file-system operations.  The drawing
    of the progress bar (tqdm, on standard error) is not recorded. *)
Inductive Event :=
| EPrint (line : string)
| ECompletion (model : string) (messages : list message)
| ESleep (seconds : nat)
| EMkdir (dir : Path)
| EToCsv (path : Path) (rows : list Row).

(** *** The file system *)

(** The files and directories on disk, by the text of their paths; a file
    is the list of the rows written to it. *)
Record FileSystem := {
  files : gmap string (list Row);
  directories : gset string
}.

(** [EMkdir d] is [d.mkdir(parents=True, exist_ok=True)]: [d] and the
    directories above it exist afterwards.  [EToCsv] writes (or
    overwrites) the file at the path. *)
Definition apply_event (fs : FileSystem) (ev : Event) : FileSystem :=
  match ev with
  | EMkdir d =>
      {| files := files fs;
         directories :=
           list_to_set (str_path <$> d :: parents d) ∪ directories fs |}
  | EToCsv p rows =>
      {| files := <[str_path p := rows]> (files fs);
         directories := directories fs |}
  | _ => fs
  end.

Definition apply_trace (fs : FileSystem) (t : list Event) : FileSystem :=
  foldl apply_event fs t.

(** [p.is_dir()].  A path without components is the root or the working
    directory, which are there. *)
Definition is_dir (fs : FileSystem) (p : Path) : bool :=
  bool_decide (parts p = [] ∨ str_path p ∈ directories fs).

Definition M (A : Type) : Type := list Event * result A.

#[global] Instance M_ret : MRet M := λ A a, ([], Returned a).

#[global] Instance M_bind : MBind M := λ A B k m,
  match m with
  | (t, Returned a) => let '(t', r) := k a in (t ++ t', r)
  | (t, Raised e) => (t, Raised e)
  end.

Definition raise {A} (e : exn) : M A := ([], Raised e).

Definition emit (ev : Event) : M unit := ([ev], Returned tt).

Definition print (line : string) : M unit := emit (EPrint line).

(** [try: body / except Exception as e: handler e]. *)
Definition try_except {A} (body : M A) (handler : exn → M A) : M A :=
  match body with
  | (t, Returned a) => (t, Returned a)
  | (t, Raised e) => let '(t', r) := handler e in (t ++ t', r)
  end.

(** *** Configuration *)

Definition MODEL_NAME : string := "gpt-4o-mini".
Definition NUM_TUPLES_TO_GENERATE : nat := 10.
Definition NUM_QUERIES_PER_TUPLE : nat := 5.
Definition NUM_AMBIGUOUS_QUERIES : nat := 15.
Definition NUM_ADVERSARIAL_QUERIES : nat := 3.
Definition MAX_WORKERS : nat := 5.

(** *** What the script takes from its libraries and from its own text

    Pydantic's serialiser and validating constructors, and the prompt
    texts (long literals, full of quotation marks), are not part of the
    logic under study: the script is modelled over any choice of them. *)
Class External := {
  (** [tup.model_dump_json()] *)
  model_dump_json : DimensionTuple → string;
  (** [DimensionTuplesList( **json.loads(body))]: fails on a malformed
      payload or on a schema mismatch *)
  parse_DimensionTuplesList : string → exn + DimensionTuplesList;
  (** [QueriesList( **json.loads(body))] *)
  parse_QueriesList : string → exn + QueriesList;
  (** the prompt of [generate_dimension_tuples] *)
  tuples_prompt : string;
  (** the prompt of [generate_queries_for_tuple] *)
  queries_prompt : DimensionTuple → string;
  (** the prompt of [generate_ambiguous_queries num] *)
  ambiguous_prompt : nat → string;
  (** the prompt of [generate_adversarial_queries num] *)
  adversarial_prompt : nat → string;
  (** [Path(__file__).parent] *)
  script_dir : Path
}.

Section script.
Context `{External}.

(** *** Helper functions *)

(** The body of the [try] in [call_llm], for the attempt numbered
    [attempt]: the provider is called, then its answer is decoded.
    [completion attempt] is what the provider does at that attempt. *)
Definition call_llm_try {A} (completion : nat → outcome)
    (messages : list message) (response_format : string → exn + A)
    (attempt : nat) : M A :=
  emit (ECompletion MODEL_NAME messages) ;;
  match completion attempt with
  | Raises e => raise e
  | Responds body =>
      match response_format body with
      | inl e => raise e
      | inr v => mret v
      end
  end.

(** The [for attempt in range(max_retries)] loop, over the attempt
    numbers still to run.  Falling out of the loop ends the function
    without a [return]: Python then yields [None]. *)
Fixpoint call_llm_for {A} (completion : nat → outcome)
    (messages : list message) (response_format : string → exn + A)
    (max_retries : nat) (range : list nat) : M (option A) :=
  match range with
  | [] => mret None
  | attempt :: range' =>
      try_except
        (v ← call_llm_try completion messages response_format attempt;
         mret (Some v))
        (λ e,
           if decide (attempt = max_retries - 1) then raise e
           else
             emit (ESleep 1) ;;
             call_llm_for completion messages response_format
               max_retries range')
  end.

Definition call_llm {A} (completion : nat → outcome)
    (messages : list message) (response_format : string → exn + A)
    : M (option A) :=
  let max_retries := 3 in
  call_llm_for completion messages response_format
    max_retries (seq 0 max_retries).

(** *** Dimension tuples *)

(** The deduplication loop of [generate_dimension_tuples]:
    [unique_tuples] is a list, [seen] a set of strings. *)
Definition dedup_step (acc : list DimensionTuple * gset string)
    (tup : DimensionTuple) : list DimensionTuple * gset string :=
  let '(unique_tuples, seen) := acc in
  let tuple_str := model_dump_json tup in
  if decide (tuple_str ∉ seen)
  then (unique_tuples ++ [tup], {[tuple_str]} ∪ seen)
  else (unique_tuples, seen).

Definition dedup_tuples (all_tuples : list DimensionTuple)
    : list DimensionTuple :=
  (foldl dedup_step ([], ∅) all_tuples).1.

(** The same result in the words of the specification: the entries
    whose canonical serialisation does not occur at an earlier
    position, in the order in which they come. *)
Definition keep_first_occurrences (all_tuples : list DimensionTuple)
    : list DimensionTuple :=
  (filter
     (λ it, model_dump_json it.2 ∉
              model_dump_json <$> take it.1 all_tuples)
     (imap pair all_tuples)).*2.

(** An attribute access on what [call_llm] returned: on [None] it
    raises AttributeError. *)
Definition getattr {R A} (attr : string) (field : R → A)
    (response : option R) : M A :=
  match response with
  | Some r => mret (field r)
  | None =>
      raise (Exception
        ("'NoneType' object has no attribute '" +:+ attr +:+ "'"))
  end.

(** The executor of this function runs the single submitted call and
    [future.result()] hands back its value or re-raises its exception,
    which is what a direct call does. *)
Definition generate_dimension_tuples (completion : nat → outcome)
    : M (list DimensionTuple) :=
  let messages := [Message "user" tuples_prompt] in
  try_except
    (response ← call_llm completion messages parse_DimensionTuplesList;
     all_tuples ← getattr "tuples" tuples response;
     mret (dedup_tuples all_tuples))
    (λ e,
       print ("Error generating dimension tuples: " +:+ str_exn e) ;;
       mret []).

(** *** Queries *)

Definition generate_queries_for_tuple (completion : nat → outcome)
    (dimension_tuple : DimensionTuple) : M (list string) :=
  let messages := [Message "user" (queries_prompt dimension_tuple)] in
  try_except
    (response ← call_llm completion messages parse_QueriesList;
     getattr "queries" queries response)
    (λ e,
       print ("Error generating queries for tuple: " +:+ str_exn e) ;;
       mret []).

Definition generate_ambiguous_queries (completion : nat → outcome)
    (num : nat) : M (list string) :=
  let messages := [Message "user" (ambiguous_prompt num)] in
  try_except
    (response ← call_llm completion messages parse_QueriesList;
     getattr "queries" queries response)
    (λ e,
       print ("Error generating ambiguous queries: " +:+ str_exn e) ;;
       mret []).

Definition generate_adversarial_queries (completion : nat → outcome)
    (num : nat) : M (list string) :=
  let messages := [Message "user" (adversarial_prompt num)] in
  try_except
    (response ← call_llm completion messages parse_QueriesList;
     getattr "queries" queries response)
    (λ e,
       print ("Error generating adversarial queries: " +:+ str_exn e) ;;
       mret []).

(** *** The fan-out over the tuples *)

(** The inner [for query in queries] loop of the collecting thread: it
    appends one record per query and advances [query_id]. *)
Definition append_regular (dim_tuple : DimensionTuple)
    (acc : list QueryWithDimensions * nat) (query : string)
    : list QueryWithDimensions * nat :=
  let '(all_queries, query_id) := acc in
  (all_queries ++
     [new_QueryWithDimensions ("SYN" +:+ fmt_03d query_id) query
        (Some dim_tuple) "regular"],
   query_id + 1).

(** The [for future in as_completed(future_to_tuple)] loop.

    [task i t] is the work submitted for the tuple [t] at index [i];
    [order] lists the indices in the order in which their futures
    complete.  The futures are the keys of [future_to_tuple], one per
    index of [dimension_tuples]: an index outside the list names no
    future and is passed over.  The effects of a task are entered in
    the trace when its future is collected; tasks share no state, so
    this is one of the interleavings the pool can produce. *)
Fixpoint collect_futures
    (task : nat → DimensionTuple → M (list string))
    (dimension_tuples : list DimensionTuple) (order : list nat)
    (all_queries : list QueryWithDimensions) (query_id : nat)
    : M (list QueryWithDimensions) :=
  match order with
  | [] => mret all_queries
  | tuple_idx :: order' =>
      match dimension_tuples !! tuple_idx with
      | None =>
          collect_futures task dimension_tuples order'
            all_queries query_id
      | Some dim_tuple =>
          acc ← try_except
            (queries ← task tuple_idx dim_tuple;
             match queries with
             | [] => mret (all_queries, query_id)
             | _ :: _ =>
                 mret (foldl (append_regular dim_tuple)
                         (all_queries, query_id) queries)
             end)
            (λ e,
               print ("Tuple " +:+ str_nat (tuple_idx + 1) +:+
                      " generated an exception: " +:+ str_exn e) ;;
               mret (all_queries, query_id));
          collect_futures task dimension_tuples order' acc.1 acc.2
      end
  end.

(** [generate_queries_parallel] with the submitted function left open,
    so that the collecting loop is described for tasks that raise as
    well as for tasks that return. *)
Definition generate_queries_parallel_with
    (task : nat → DimensionTuple → M (list string))
    (dimension_tuples : list DimensionTuple) (order : list nat)
    : M (list QueryWithDimensions) :=
  print ("Generating " +:+ str_nat NUM_QUERIES_PER_TUPLE +:+
         " queries each for " +:+ str_nat (length dimension_tuples) +:+
         " dimension tuples...") ;;
  collect_futures task dimension_tuples order [] 1.

(** [completion i] is what the provider does, attempt by attempt, for
    the call made by the task of index [i]. *)
Definition generate_queries_parallel
    (completion : nat → nat → outcome)
    (dimension_tuples : list DimensionTuple) (order : list nat)
    : M (list QueryWithDimensions) :=
  generate_queries_parallel_with
    (λ i dim_tuple, generate_queries_for_tuple (completion i) dim_tuple)
    dimension_tuples order.

(** *** Persistence *)

(** [now] is what [datetime.datetime.now()] reads.  [dir_path = None] is
    the default argument. *)
Definition get_output_csv_path (now : datetime)
    (base_name : string) (dir_path : option PathLike) (ext : string)
    : M Path :=
  let dir_path :=
    match dir_path with
    | None => script_dir
    | Some d => Path_of d
    end in
  let timestamp := strftime now in
  let file_name := base_name +:+ "_" +:+ timestamp +:+ "." +:+ ext in
  let output_path := joinpath dir_path file_name in
  emit (EMkdir (parent output_path)) ;;
  mret output_path.

(** The dict built for one record in the list comprehension of
    [save_queries_to_csv].  A pydantic model defines neither [__bool__]
    nor [__len__], so [if q.dimension_tuple] tests for [None]. *)
Definition to_row (q : QueryWithDimensions) : Row :=
  {| col_id := id q;
     col_query := query q;
     col_dimension_tuple_json :=
       match dimension_tuple q with
       | Some t => Some (model_dump_json t)
       | None => None
       end;
     col_query_type := query_type q;
     col_is_realistic_and_kept := is_realistic_and_kept q;
     col_notes_for_filtering := notes_for_filtering q |}.

(** [fs] is the file system the call meets.  [df.to_csv] first checks
    that the directory of the path exists and raises OSError when it does
    not, before anything is written; the function itself creates no
    directory.  Where the directory exists the write is taken to go
    through: no directory stands at the path itself, and permissions and
    space are not in the model. *)
Definition save_queries_to_csv (fs : FileSystem)
    (queries : list QueryWithDimensions) (output_csv_path : Path) : M unit :=
  match queries with
  | [] => print "No queries to save."
  | _ :: _ =>
      let df := to_row <$> queries in
      (if is_dir fs (parent output_csv_path)
       then emit (EToCsv output_csv_path df)
       else raise (Exception
              ("Cannot save file into a non-existent directory: '" +:+
               str_path (parent output_csv_path) +:+ "'"))) ;;
      print ("Saved " +:+ str_nat (length queries) +:+ " queries to " +:+
             str_path output_csv_path)
  end.

(** *** Shuffling *)

(** [x[i], x[j] = x[j], x[i]]: the right-hand side is read first, then
    [x[i]] and [x[j]] are stored in that order.  (Python raises
    IndexError outside the list; [shuffle] stays inside.) *)
Definition swap {A} (x : list A) (i j : nat) : list A :=
  match x !! j, x !! i with
  | Some xj, Some xi => <[j := xi]> (<[i := xj]> x)
  | _, _ => x
  end.

(** [random.shuffle(x)], as in CPython's random.py:
<<
    for i in reversed(range(1, len(x))):
        j = randbelow(i + 1)
        x[i], x[j] = x[j], x[i]
>>
    [randbelow n] is the raw draw behind the call [randbelow(n)] (one
    call per value of [n] in a run); the library returns an integer in
    [0, n), which the model obtains by reducing the draw modulo [n]. *)
Definition shuffle {A} (randbelow : nat → nat) (x : list A) : list A :=
  foldl (λ x i, swap x i (randbelow (i + 1) `mod` (i + 1)))
        x (reverse (seq 1 (length x - 1))).

(** *** The orchestrator *)

(** What one run of [main] gets from the outside world. *)
Record Env := {
  (** ["OPENAI_API_KEY" in os.environ] *)
  has_api_key : bool;
  (** the provider, attempt by attempt, at each call site *)
  tuples_completion : nat → outcome;
  queries_completion : nat → nat → outcome;
  ambiguous_completion : nat → outcome;
  adversarial_completion : nat → outcome;
  (** the order in which the futures of the fan-out complete *)
  completion_order : list nat;
  (** the draws of [random.shuffle] *)
  randbelow : nat → nat;
  (** the clock: the date read for the file name, and the time the run
      took as formatted for the summary ([f"{elapsed_time:.2f}"]) *)
  now : datetime;
  elapsed_time : string;
  (** the file system at the start of the run *)
  file_system : FileSystem
}.

(** [main] returns [None]; the model returns instead where it stopped
    and, when it ran to the end, the values of its local variables
    [regular_queries], [ambiguous_queries], [adversarial_queries] and
    [all_queries] (after the shuffle). *)
Inductive Exit :=
| ExitNoApiKey
| ExitNoTuples
| ExitDone (regular_queries ambiguous_queries adversarial_queries
            all_queries : list QueryWithDimensions).

Definition main (env : Env) : M Exit :=
  if negb (has_api_key env) then
    print "Error: OPENAI_API_KEY environment variable not set." ;;
    mret ExitNoApiKey
  else
    print "Step 1: Generating dimension tuples..." ;;
    dimension_tuples ← generate_dimension_tuples (tuples_completion env);
    match dimension_tuples with
    | [] =>
        print "Failed to generate dimension tuples. Exiting." ;;
        mret ExitNoTuples
    | _ :: _ =>
        print ("Generated " +:+ str_nat (length dimension_tuples) +:+
               " dimension tuples.") ;;
        print (newline +:+ "Step 2: Generating regular queries...") ;;
        regular_queries ←
          generate_queries_parallel (queries_completion env)
            dimension_tuples (completion_order env);
        print (newline +:+ "Step 3: Generating ambiguous queries...") ;;
        ambiguous_queries_raw ←
          generate_ambiguous_queries (ambiguous_completion env)
            NUM_AMBIGUOUS_QUERIES;
        let ambiguous_queries :=
          imap (λ i q, new_QueryWithDimensions
                         ("AMB" +:+ fmt_03d (i + 1)) q None "ambiguous")
               ambiguous_queries_raw in
        print (newline +:+ "Step 4: Generating adversarial queries...") ;;
        adversarial_queries_raw ←
          generate_adversarial_queries (adversarial_completion env)
            NUM_ADVERSARIAL_QUERIES;
        let adversarial_queries :=
          imap (λ i q, new_QueryWithDimensions
                         ("ADV" +:+ fmt_03d (i + 1)) q None "adversarial")
               adversarial_queries_raw in
        let all_queries :=
          regular_queries ++ ambiguous_queries ++ adversarial_queries in
        let all_queries := shuffle (randbelow env) all_queries in
        output_csv_path ←
          get_output_csv_path (now env)
            "synthetic_queries_for_analysis" (Some (AsPath script_dir))
            "csv";
        save_queries_to_csv
          (apply_event (file_system env)
             (EMkdir (parent output_csv_path)))
          all_queries output_csv_path ;;
        print (newline +:+ "Query generation completed successfully in "
               +:+ elapsed_time env +:+ " seconds.") ;;
        print ("Generated " +:+ str_nat (length all_queries) +:+
               " queries (" +:+
               str_nat (length regular_queries) +:+ " regular, " +:+
               str_nat (length ambiguous_queries) +:+ " ambiguous, " +:+
               str_nat (length adversarial_queries) +:+ " adversarial).") ;;
        mret (ExitDone regular_queries ambiguous_queries
                adversarial_queries all_queries)
    end.

End script.

(** *** Reading a trace *)

Definition is_completion (ev : Event) : bool :=
  match ev with ECompletion _ _ => true | _ => false end.

Definition is_fs_event (ev : Event) : bool :=
  match ev with EMkdir _ | EToCsv _ _ => true | _ => false end.

(** The file-system operations of a trace, in order. *)
Definition fs_events (t : list Event) : list Event :=
  filter (λ ev, is_fs_event ev = true) t.

(** How many times the provider was invoked. *)
Definition provider_calls (t : list Event) : nat :=
  length (filter (λ ev, is_completion ev = true) t).

(** The sleeps, in order. *)
Definition sleeps (t : list Event) : list nat :=
  omap (λ ev, match ev with ESleep n => Some n | _ => None end) t.

(** What [call_llm]'s attempt number [i] comes to: the decoded value, or
    the exception of the provider or of the decoder. *)
Definition attempt_result {A} (completion : nat → outcome)
    (response_format : string → exn + A) (i : nat) : exn + A :=
  match completion i with
  | Raises e => inl e
  | Responds body => response_format body
  end.

Definition attempt_fails {A} (completion : nat → outcome)
    (response_format : string → exn + A) (i : nat) : Prop :=
  ∃ e, attempt_result completion response_format i = inl e.

(** The trace of [k] failed attempts, each followed by its sleep, and of
    one more attempt. *)
Definition retry_trace (messages : list message) (k : nat) : list Event :=
  mjoin (replicate k [ECompletion MODEL_NAME messages; ESleep 1]) ++
  [ECompletion MODEL_NAME messages].

(** The provider answers with [v] within the three attempts of
    [call_llm]: some attempt [k < 3] decodes to [v] and the attempts before
    it fail. *)
Definition answers {A} (completion : nat → outcome)
  (response_format : string → exn + A) (v : A) : Prop :=
  ∃ k, k < 3 ∧
     (∀ j, j < k → attempt_fails completion response_format j) ∧
     attempt_result completion response_format k = inr v.

(** The provider fails on each of the three attempts. *)
Definition never_answers {A} (completion : nat → outcome)
  (response_format : string → exn + A) : Prop :=
  ∀ j, j < 3 → attempt_fails completion response_format j.

(** *** Reading the fan-out *)

(** The records made of a list of pairs (tuple, query), numbered from
    [first_id] on. *)
Definition regular_records (first_id : nat)
  (pairs : list (DimensionTuple * string)) : list QueryWithDimensions :=
  imap (λ n p, new_QueryWithDimensions ("SYN" +:+ fmt_03d (first_id + n))
               p.2 (Some p.1) "regular")
     pairs.

(** What the future of index [i] hands to the collecting thread: its
    queries, each with the tuple of that index; nothing when it raises. *)
Definition future_queries (task : nat → DimensionTuple → M (list string))
  (dimension_tuples : list DimensionTuple) (i : nat)
  : list (DimensionTuple * string) :=
  match dimension_tuples !! i with
  | Some t =>
    match (task i t).2 with
    | Returned qs => (λ q, (t, q)) <$> qs
    | Raised _ => []
    end
  | None => []
  end.

(** The future of index [i] fails: it raises, or comes back empty-handed. *)
Definition future_fails (task : nat → DimensionTuple → M (list string))
  (dimension_tuples : list DimensionTuple) (i : nat) : Prop :=
  ∀ t, dimension_tuples !! i = Some t →
     (∃ e, (task i t).2 = Raised e) ∨ (task i t).2 = Returned [].

(** *** Reading a run of [main] *)

(** The list comprehensions of steps 3 and 4. *)
Definition ambiguous_records (raw : list string) : list QueryWithDimensions :=
  imap (λ i q, new_QueryWithDimensions ("AMB" +:+ fmt_03d (i + 1)) q None
               "ambiguous")
     raw.

Definition adversarial_records (raw : list string)
  : list QueryWithDimensions :=
  imap (λ i q, new_QueryWithDimensions ("ADV" +:+ fmt_03d (i + 1)) q None
               "adversarial")
     raw.

(** The file name [get_output_csv_path] makes for [main], and the path
    it returns. *)
Definition output_file_name (env : Env) : string :=
  "synthetic_queries_for_analysis" +:+ "_" +:+ strftime (now env) +:+
  "." +:+ "csv".

Definition output_path `{External} (env : Env) : Path :=
  joinpath script_dir (output_file_name env).

(** The file system [save_queries_to_csv] meets in [main]: the one of the
    start of the run, after the [mkdir] of [get_output_csv_path]. *)
Definition file_system_at_save `{External} (env : Env) : FileSystem :=
  apply_event (file_system env) (EMkdir script_dir).

(** The task [generate_queries_parallel] submits for index [i]. *)
Definition query_task `{External} (env : Env)
  : nat → DimensionTuple → M (list string) :=
  λ i dim_tuple, generate_queries_for_tuple (queries_completion env i) dim_tuple.

(** The trace of a run of [main] that goes through all its stages:
    [t1] to [t4] are the traces of the four generation stages. *)
Definition done_trace `{External} (env : Env) (t1 t2 t3 t4 : list Event)
  (n_tuples : nat)
  (regular ambiguous adversarial all_queries : list QueryWithDimensions)
  : list Event :=
  EPrint "Step 1: Generating dimension tuples..." :: t1 ++
  EPrint ("Generated " +:+ str_nat n_tuples +:+ " dimension tuples.") ::
  EPrint (newline +:+ "Step 2: Generating regular queries...") :: t2 ++
  EPrint (newline +:+ "Step 3: Generating ambiguous queries...") :: t3 ++
  EPrint (newline +:+ "Step 4: Generating adversarial queries...") :: t4 ++
  EMkdir script_dir ::
  (save_queries_to_csv (file_system_at_save env) all_queries
     (output_path env)).1 ++
  [EPrint (newline +:+ "Query generation completed successfully in " +:+
         elapsed_time env +:+ " seconds.");
 EPrint ("Generated " +:+ str_nat (length all_queries) +:+ " queries (" +:+
         str_nat (length regular) +:+ " regular, " +:+
         str_nat (length ambiguous) +:+ " ambiguous, " +:+
         str_nat (length adversarial) +:+ " adversarial).")].

(** The trace of a run of [main] that stops for want of tuples. *)
Definition no_tuples_trace (t1 : list Event) : list Event :=
  EPrint "Step 1: Generating dimension tuples..." :: t1 ++
  [EPrint "Failed to generate dimension tuples. Exiting."].

(** The prefix of the identifiers of a category. *)
Definition id_prefix (query_type : string) : string :=
  if decide (query_type = "regular") then "SYN"
  else if decide (query_type = "ambiguous") then "AMB"
  else "ADV".

(** The invariant of the records of a run. *)
Definition record_invariant (q : QueryWithDimensions) : Prop :=
  query_type q ∈ ["regular"; "ambiguous"; "adversarial"] ∧
  (∃ n, 1 ≤ n ∧ id q = id_prefix (query_type q) +:+ fmt_03d n) ∧
  (is_Some (dimension_tuple q) ↔ query_type q = "regular") ∧
  is_realistic_and_kept q = 1%Z ∧
  notes_for_filtering q = "".

(** *** Stand-ins for the examples

    A mocked pydantic and mocked prompts, on which the definitions above
    can be run.  Bodies are taken as semicolon-separated fields; an empty
    body stands for a payload that does not decode. *)
Module Mock.

Definition fields (body : string) : list string :=
  split ";"%char "" body.

Definition tuple_of (diet : string) : DimensionTuple :=
  {| DietaryNeedsOrRestrictions := diet;
     AvailableIngredientsFocus := "general_pantry";
     CuisinePreference := "any_cuisine";
     SkillLevelEffort := "beginner_easy_low_effort";
     TimeAvailability := "quick_under_30_mins";
     QueryStyleAndDetail := "short_keywords_minimal_detail";
     UserContextOrScenario := "regular_meal";
     UserAbilityOrAccessibility := "no_specific_needs" |}.

#[export] Instance external : External := {|
  model_dump_json t :=
    DietaryNeedsOrRestrictions t +:+ "," +:+
    AvailableIngredientsFocus t +:+ "," +:+
    CuisinePreference t +:+ "," +:+
    SkillLevelEffort t +:+ "," +:+
    TimeAvailability t +:+ "," +:+
    QueryStyleAndDetail t +:+ "," +:+
    UserContextOrScenario t +:+ "," +:+
    UserAbilityOrAccessibility t;
  parse_DimensionTuplesList body :=
    if decide (body = "") then inl (Exception "Expecting value")
    else inr {| tuples := tuple_of <$> fields body |};
  parse_QueriesList body :=
    if decide (body = "") then inl (Exception "Expecting value")
    else inr {| queries := fields body |};
  tuples_prompt := "Generate diverse combinations";
  queries_prompt t := "Generate queries for " +:+
                      DietaryNeedsOrRestrictions t;
  ambiguous_prompt n := "Generate ambiguous queries";
  adversarial_prompt n := "Generate adversarial queries";
  script_dir := Path_of_str "homeworks/hw2"
|}.

(** A provider that fails on the attempts before [k] and answers
    [body] from attempt [k] on. *)
Definition fails_then (k : nat) (body : string) : nat → outcome :=
  λ attempt,
    if decide (attempt < k)
    then Raises (Exception ("timeout " +:+ str_nat attempt))
    else Responds body.

Definition always_fails : nat → outcome :=
  λ attempt, Raises (Exception ("timeout " +:+ str_nat attempt)).

(** A run with two tuples, three queries per tuple, four ambiguous and
    two adversarial queries; the second future completes first. *)
Definition env : Env := {|
  has_api_key := true;
  tuples_completion := fails_then 0 "vegan;keto;vegan";
  queries_completion := λ i,
    if decide (i = 0) then fails_then 1 "a1;a2;a3"
    else fails_then 0 "b1;b2;b3";
  ambiguous_completion := fails_then 2 "m1;m2;m3;m4";
  adversarial_completion := fails_then 0 "x1;x2";
  completion_order := [1; 0];
  randbelow := λ n, 7 * n + 3;
  now := {| year := 2025; month := 1; day := 1;
            hour := 12; minute := 0; second := 0 |};
  elapsed_time := "12.34";
  file_system := {| files := ∅; directories := ∅ |}
|}.

(** The same run with a provider that never answers the first call. *)
Definition env_no_tuples : Env := {|
  has_api_key := true;
  tuples_completion := always_fails;
  queries_completion := queries_completion env;
  ambiguous_completion := ambiguous_completion env;
  adversarial_completion := adversarial_completion env;
  completion_order := completion_order env;
  randbelow := randbelow env;
  now := now env;
  elapsed_time := elapsed_time env;
  file_system := file_system env
|}.

(** The same run with a provider that answers the first call only. *)
Definition env_no_queries : Env := {|
  has_api_key := true;
  tuples_completion := tuples_completion env;
  queries_completion := λ _, always_fails;
  ambiguous_completion := always_fails;
  adversarial_completion := always_fails;
  completion_order := completion_order env;
  randbelow := randbelow env;
  now := now env;
  elapsed_time := elapsed_time env;
  file_system := file_system env
|}.

(** The same run with a provider that never answers the call for the
    ambiguous queries. *)
Definition env_no_ambiguous : Env := {|
  has_api_key := true;
  tuples_completion := tuples_completion env;
  queries_completion := queries_completion env;
  ambiguous_completion := always_fails;
  adversarial_completion := adversarial_completion env;
  completion_order := completion_order env;
  randbelow := randbelow env;
  now := now env;
  elapsed_time := elapsed_time env;
  file_system := file_system env
|}.




(** The same run without the API key. *)
Definition env_no_api_key : Env := {|
  has_api_key := false;
  tuples_completion := tuples_completion env;
  queries_completion := queries_completion env;
  ambiguous_completion := ambiguous_completion env;
  adversarial_completion := adversarial_completion env;
  completion_order := completion_order env;
  randbelow := randbelow env;
  now := now env;
  elapsed_time := elapsed_time env;
  file_system := file_system env
|}.

End Mock.
End Hw2.

(** ** backend/utils.py *)
Module Backend.
Import Py.

(** List objects are held in a store and named by their address: two
    variables bound to the same list hold the same address. *)
Definition addr := nat.
Abbreviation store := (gmap addr (list message)).

(** Building a new list object. *)
Definition alloc (v : list message) (h : store) : addr * store :=
  let a := fresh (dom h) in (a, <[a := v]> h).

(** The constant and the string method the function uses:
    [SYSTEM_PROMPT] (backend/prompts.py, a long literal) and
    [str.strip]. *)
Class External := {
  SYSTEM_PROMPT : string;
  strip : string → string
}.

Section utils.
Context `{External}.

(** The test [not messages or messages[0]["role"] != "system"]. *)
Definition needs_system_prompt (msgs : list message) : bool :=
  match msgs with
  | [] => true
  | m :: _ => bool_decide (role m ≠ "system")
  end.

(** [completion msgs] is what [litellm.completion] does when called
    with a list whose entries are [msgs]; it reads the list and does
    not write to it.  [messages] is the address of the caller's list;
    the result is the address of the returned list, together with the
    store at return. *)
Definition get_agent_response (completion : list message → outcome)
    (messages : addr) (h : store) : result addr * store :=
  match h !! messages with
  | None => (Raised (Exception "unbound list"), h)
  | Some msgs =>
      let '(current_messages, h) :=
        if needs_system_prompt msgs
        then alloc ([Message "system" SYSTEM_PROMPT] ++ msgs) h
        else (messages, h) in
      match h !! current_messages with
      | None => (Raised (Exception "unbound list"), h)
      | Some current =>
          match completion current with
          | Raises e => (Raised e, h)
          | Responds body =>
              let assistant_reply_content := strip body in
              let '(updated_messages, h) :=
                alloc (current ++
                         [Message "assistant" assistant_reply_content]) h in
              (Returned updated_messages, h)
          end
      end
  end.

(** The conversation the provider is called with: [messages] itself, or
    [messages] behind the system entry. *)
Definition current_conversation (msgs : list message) : list message :=
  if needs_system_prompt msgs
  then Message "system" SYSTEM_PROMPT :: msgs
  else msgs.

End utils.

Module Mock.
#[export] Instance external : External := {|
  SYSTEM_PROMPT := "You are a cooking assistant.";
  strip s := s
|}.
End Mock.
End Backend.

(* ===================================================================== *)
(** * Part II: properties                                                 *)
(* ===================================================================== *)

Module Hw2Facts.
Import Py Hw2.

(** ** The structured call wrapper *)

Section call_llm_facts.
Context {A : Type}.
Variable completion : nat → outcome.
Variable messages : list message.
Variable response_format : string → exn + A.

Lemma call_llm_try_unfold attempt :
  call_llm_try completion messages response_format attempt =
  ([ECompletion MODEL_NAME messages],
   match attempt_result completion response_format attempt with
   | inl e => Raised e
   | inr v => Returned v
   end).
Proof.
  unfold call_llm_try, attempt_result.
  destruct (completion attempt) as [e|body]; [done|].
  by destruct (response_format body).
Qed.

(** One turn of the loop, read off the result of the attempt. *)
Lemma call_llm_for_cons max_retries attempt range :
  call_llm_for completion messages response_format max_retries
    (attempt :: range) =
  match attempt_result completion response_format attempt with
  | inr v => ([ECompletion MODEL_NAME messages], Returned (Some v))
  | inl e =>
      if decide (attempt = max_retries - 1)
      then ([ECompletion MODEL_NAME messages], Raised e)
      else
        let '(t, r) :=
          call_llm_for completion messages response_format
            max_retries range in
        (ECompletion MODEL_NAME messages :: ESleep 1 :: t, r)
  end.
Proof.
  cbn [call_llm_for]. unfold mbind, M_bind, try_except.
  rewrite call_llm_try_unfold.
  destruct (attempt_result _ _ attempt) as [e|v]; [|done].
  destruct (decide _); [done|].
  cbn. by destruct (call_llm_for _ _ _ _ range).
Qed.

Lemma call_llm_first_success k v :
  k < 3 →
  (∀ j, j < k → attempt_fails completion response_format j) →
  attempt_result completion response_format k = inr v →
  call_llm completion messages response_format =
  (retry_trace messages k, Returned (Some v)).
Proof.
  intros Hk Hfail Hok. unfold call_llm. cbn [seq].
  rewrite !call_llm_for_cons. cbn [call_llm_for].
  assert (k = 0 ∨ k = 1 ∨ k = 2) as [-> | [-> | ->]] by lia.
  - by rewrite Hok.
  - destruct (Hfail 0) as [e0 ->]; [lia|]. by rewrite Hok.
  - destruct (Hfail 0) as [e0 ->]; [lia|].
    destruct (Hfail 1) as [e1 ->]; [lia|]. by rewrite Hok.
Qed.

Lemma call_llm_all_fail e :
  (∀ j, j < 2 → attempt_fails completion response_format j) →
  attempt_result completion response_format 2 = inl e →
  call_llm completion messages response_format =
  (retry_trace messages 2, Raised e).
Proof.
  intros Hfail Hlast. unfold call_llm. cbn [seq].
  rewrite !call_llm_for_cons. cbn [call_llm_for].
  destruct (Hfail 0) as [e0 ->]; [lia|].
  destruct (Hfail 1) as [e1 ->]; [lia|]. by rewrite Hlast.
Qed.

Lemma provider_calls_retry_trace k :
  provider_calls (retry_trace messages k) = k + 1.
Proof.
  unfold retry_trace, provider_calls.
  induction k as [|k IH]; [done|].
  change (S k) with (1 + k) at 1.
  rewrite replicate_add, join_app, <- (assoc_L (++)), filter_app, length_app.
  by rewrite IH.
Qed.

Lemma sleeps_retry_trace k :
  sleeps (retry_trace messages k) = replicate k 1.
Proof.
  unfold retry_trace, sleeps.
  induction k as [|k IH]; [done|].
  change (S k) with (1 + k) at 1.
  rewrite replicate_add, join_app, <- (assoc_L (++)), omap_app.
  by rewrite IH.
Qed.

End call_llm_facts.

(** C1.  [call_llm] calls the provider at most 3 times.  If attempt [k]
    (counting from 0, [k < 3]) is the first to succeed, it returns the
    value decoded by that attempt after exactly [k + 1] calls of the
    provider and [k] sleeps of 1 second, one after each failed attempt.
    If the three attempts fail it raises the exception of the third one,
    after exactly 3 calls of the provider. *)
Theorem call_llm_retries {A} (completion : nat → outcome)
    (messages : list message) (response_format : string → exn + A) :
  let run := call_llm completion messages response_format in
  provider_calls run.1 ≤ 3 ∧
  (∀ k v,
     k < 3 →
     (∀ j, j < k → attempt_fails completion response_format j) →
     attempt_result completion response_format k = inr v →
     run = (retry_trace messages k, Returned (Some v)) ∧
     provider_calls run.1 = k + 1 ∧
     sleeps run.1 = replicate k 1) ∧
  (∀ e,
     (∀ j, j < 2 → attempt_fails completion response_format j) →
     attempt_result completion response_format 2 = inl e →
     run = (retry_trace messages 2, Raised e) ∧
     provider_calls run.1 = 3 ∧
     sleeps run.1 = [1; 1]).
Proof.
  intros run. subst run. split_and!.
  - unfold call_llm. cbn [seq].
    rewrite !call_llm_for_cons. cbn [call_llm_for].
    destruct (attempt_result _ _ 0); [|vm_compute; lia].
    destruct (attempt_result _ _ 1); [|vm_compute; lia].
    destruct (attempt_result _ _ 2); vm_compute; lia.
  - intros k v Hk Hfail Hok.
    rewrite (call_llm_first_success _ _ _ k v) by done.
    cbn [fst]. by rewrite provider_calls_retry_trace, sleeps_retry_trace.
  - intros e Hfail Hlast.
    by rewrite (call_llm_all_fail _ _ _ e).
Qed.

(** ** Deduplication of the dimension tuples *)

Lemma filter_ext_elem {B} (P Q : B → Prop)
    `{!∀ x, Decision (P x), !∀ x, Decision (Q x)} (l : list B) :
  (∀ x, x ∈ l → P x ↔ Q x) → filter P l = filter Q l.
Proof.
  induction l as [|a l IH]; intros Hext; [done|].
  rewrite !filter_cons.
  assert (P a ↔ Q a) by (apply Hext; left).
  rewrite IH by (intros; apply Hext; by right).
  repeat case_decide; tauto.
Qed.

Section dedup_facts.
Context `{External}.

Lemma keep_first_occurrences_snoc p x :
  keep_first_occurrences (p ++ [x]) =
  keep_first_occurrences p ++
  (if decide (model_dump_json x ∉ model_dump_json <$> p)
   then [x] else []).
Proof.
  unfold keep_first_occurrences.
  rewrite imap_app, filter_app, fmap_app. f_equal.
  - f_equal. apply filter_ext_elem. intros [i t] Hin. cbn.
    apply elem_of_lookup_imap in Hin as (j & y & [= -> ->] & Hj).
    apply lookup_lt_Some in Hj.
    by rewrite take_app_le by lia.
  - cbn [imap]. rewrite filter_cons, filter_nil. cbn [fst snd].
    rewrite Nat.add_0_r, take_app_length.
    by repeat case_decide.
Qed.

(** The loop maintains: [unique_tuples] holds the first occurrences of
    what was read so far, [seen] their serialisations. *)
Lemma foldl_dedup_step p l :
  foldl dedup_step
    (keep_first_occurrences p, list_to_set (model_dump_json <$> p)) l =
  (keep_first_occurrences (p ++ l),
   list_to_set (model_dump_json <$> (p ++ l))).
Proof.
  revert p. induction l as [|x l IH]; intros p.
  - by rewrite app_nil_r.
  - cbn [foldl]. rewrite (assoc_L _ p [x] l : p ++ x :: l = (p ++ [x]) ++ l).
    rewrite <- IH. f_equal.
    unfold dedup_step. rewrite keep_first_occurrences_snoc.
    rewrite fmap_app, list_to_set_app_L. cbn.
    destruct (decide (model_dump_json x ∉ _)) as [Hnew|Hold].
    + rewrite decide_True by set_solver.
      f_equal. set_solver.
    + apply dec_stable in Hold.
      rewrite decide_False by set_solver.
      rewrite app_nil_r. f_equal. set_solver.
Qed.

Lemma dedup_tuples_keep_first l :
  dedup_tuples l = keep_first_occurrences l.
Proof.
  unfold dedup_tuples.
  change (@nil DimensionTuple, ∅ : gset string) with
    (keep_first_occurrences [],
     list_to_set (model_dump_json <$> []) : gset string).
  by rewrite foldl_dedup_step.
Qed.

Lemma keep_first_occurrences_sublist l :
  keep_first_occurrences l `sublist_of` l.
Proof.
  induction l as [|x p IH] using rev_ind; [done|].
  rewrite keep_first_occurrences_snoc. apply sublist_app; [done|].
  case_decide; [done|]. apply sublist_nil_l.
Qed.

Lemma keep_first_occurrences_same_set l :
  list_to_set (model_dump_json <$> keep_first_occurrences l)
    =@{gset string} list_to_set (model_dump_json <$> l).
Proof.
  induction l as [|x p IH] using rev_ind; [done|].
  rewrite keep_first_occurrences_snoc, !fmap_app, !list_to_set_app_L, IH.
  case_decide as Hx; [done|].
  cbn. set_solver.
Qed.

Lemma keep_first_occurrences_NoDup l :
  NoDup (model_dump_json <$> keep_first_occurrences l).
Proof.
  induction l as [|x p IH] using rev_ind; [constructor|].
  rewrite keep_first_occurrences_snoc, fmap_app.
  case_decide as Hx; cbn; [|by rewrite app_nil_r].
  apply NoDup_app. split_and!; [done| |apply NoDup_singleton].
  intros s Hs ->%list_elem_of_singleton. apply Hx.
  apply (elem_of_list_to_set (C:=gset string)).
  rewrite <- keep_first_occurrences_same_set.
  by apply elem_of_list_to_set.
Qed.

(** C2.  Whatever sequence of tuples the provider's answer decodes to
    (at the first attempt that succeeds), [generate_dimension_tuples]
    returns exactly the entries whose serialisation has not occurred
    earlier in the sequence, in their original order.  Hence the result
    is a subsequence of the answer, no two of its tuples serialise
    alike, and nothing else is dropped: its length is the number of
    distinct serialisations in the answer. *)
Theorem generate_dimension_tuples_dedup (completion : nat → outcome)
    (k : nat) (response : DimensionTuplesList) :
  k < 3 →
  (∀ j, j < k → attempt_fails completion parse_DimensionTuplesList j) →
  attempt_result completion parse_DimensionTuplesList k = inr response →
  ∃ unique_tuples,
    (generate_dimension_tuples completion).2 = Returned unique_tuples ∧
    unique_tuples = keep_first_occurrences (tuples response) ∧
    unique_tuples `sublist_of` tuples response ∧
    NoDup (model_dump_json <$> unique_tuples) ∧
    length unique_tuples =
      size (list_to_set (model_dump_json <$> tuples response)
              : gset string).
Proof.
  intros Hk Hfail Hok.
  exists (dedup_tuples (tuples response)).
  pose proof (call_llm_first_success completion
                [Message "user" tuples_prompt] parse_DimensionTuplesList
                k response Hk Hfail Hok) as Hrun.
  split; [|rewrite dedup_tuples_keep_first; split_and!].
  - unfold generate_dimension_tuples. by rewrite Hrun.
  - done.
  - apply keep_first_occurrences_sublist.
  - apply keep_first_occurrences_NoDup.
  - rewrite <- keep_first_occurrences_same_set.
    rewrite size_list_to_set by apply keep_first_occurrences_NoDup.
    by rewrite length_fmap.
Qed.

End dedup_facts.

(** ** Identifiers *)

Lemma pretty_N_go_head (x : N) (s : string) :
  (0 < x)%N →
  ∃ c r, pretty_N_go x s = String c r ∧ c ≠ "0"%char.
Proof.
  revert s. induction (N.lt_wf_0 x) as [x _ IH]. intros s Hx.
  rewrite pretty_N_go_step by done.
  destruct (decide (x < 10)%N) as [Hsmall|Hbig].
  - rewrite N.div_small, pretty_N_go_0, N.mod_small by done.
    eexists _, _. split; [done|].
    intros Hzero. apply (pretty_N_char_inj x 0) in Hzero; lia.
  - apply IH.
    + apply N.div_lt; lia.
    + apply N.div_str_pos. lia.
Qed.

(** A decimal numeral is "0", or starts with a digit other than 0. *)
Lemma str_nat_canonical n :
  str_nat n = "0" ∨ ∃ c r, str_nat n = String c r ∧ c ≠ "0"%char.
Proof.
  unfold str_nat, pretty, pretty_nat, pretty, pretty_N.
  case_decide; [by left|right].
  apply pretty_N_go_head. lia.
Qed.

Lemma str_nat_inj a b : str_nat a = str_nat b → a = b.
Proof. apply (inj pretty). Qed.

(** Padding keeps the numerals apart. *)
Lemma fmt_03d_inj a b : fmt_03d a = fmt_03d b → a = b.
Proof.
  unfold fmt_03d. intros Heq. apply str_nat_inj.
  destruct (str_nat_canonical a) as [Ha|(ca & ra & Ha & Hca)],
           (str_nat_canonical b) as [Hb|(cb & rb & Hb & Hcb)];
    rewrite Ha, Hb in Heq |- *; [done|..].
  - destruct rb as [|? [|? ?]]; compute in Heq; congruence.
  - destruct ra as [|? [|? ?]]; compute in Heq; congruence.
  - destruct ra as [|? [|? ?]], rb as [|? [|? ?]]; compute in Heq; congruence.
Qed.

(** ** Strings and paths *)

Lemma string_length_app (s t : string) :
  String.length (s +:+ t) = String.length s + String.length t.
Proof.
  induction s as [|c s IH]; [done|].
  change (String c s +:+ t) with (String c (s +:+ t)).
  cbn [String.length]. by rewrite IH.
Qed.

Lemma string_app_inj_r (s1 s2 t : string) : s1 +:+ t = s2 +:+ t → s1 = s2.
Proof.
  revert s2. induction s1 as [|c1 s1 IH]; intros [|c2 s2] Heq; [done|..].
  - apply (f_equal String.length) in Heq.
    rewrite !string_length_app in Heq. cbn in Heq. lia.
  - apply (f_equal String.length) in Heq.
    rewrite !string_length_app in Heq. cbn in Heq. lia.
  - change (String c1 (s1 +:+ t) = String c2 (s2 +:+ t)) in Heq.
    injection Heq as -> Heq. f_equal. by apply IH.
Qed.

Lemma string_app_assoc (s t u : string) :
  (s +:+ t) +:+ u = s +:+ (t +:+ u).
Proof.
  induction s as [|c s IH]; [done|].
  change (String c ((s +:+ t) +:+ u) = String c (s +:+ (t +:+ u))).
  by rewrite IH.
Qed.

Lemma string_app_nil_r (s : string) : s +:+ "" = s.
Proof.
  induction s as [|c s IH]; [done|].
  change (String c (s +:+ "") = String c s). by rewrite IH.
Qed.

Lemma contains_app c (s t : string) :
  contains c (s +:+ t) = contains c s || contains c t.
Proof.
  induction s as [|c' s IH]; [done|].
  change (String c' s +:+ t) with (String c' (s +:+ t)).
  cbn [contains]. by rewrite IH, orb_assoc.
Qed.

(** A decimal numeral has digits only: no slash. *)
Lemma pretty_N_char_not_slash (d : N) : pretty_N_char d ≠ "/"%char.
Proof. unfold pretty_N_char. by repeat case_match. Qed.

Lemma contains_slash_pretty_N_go (x : N) (s : string) :
  contains "/" (pretty_N_go x s) = contains "/" s.
Proof.
  revert s. induction (N.lt_wf_0 x) as [x _ IH]. intros s.
  destruct (decide (x = 0)%N) as [->|Hx]; [by rewrite pretty_N_go_0|].
  rewrite pretty_N_go_step by lia.
  rewrite IH by (apply N.div_lt; lia).
  cbn [contains]. rewrite bool_decide_eq_false_2; [done|].
  apply pretty_N_char_not_slash.
Qed.

Lemma contains_slash_str_nat n : contains "/" (str_nat n) = false.
Proof.
  unfold str_nat, pretty, pretty_nat, pretty, pretty_N.
  case_decide; [done|]. by rewrite contains_slash_pretty_N_go.
Qed.

Lemma contains_slash_zfill w n : contains "/" (zfill w n) = false.
Proof.
  unfold zfill. rewrite contains_app, contains_slash_str_nat, orb_false_r.
  induction (w - String.length (str_nat n)) as [|k IH]; [done|]. exact IH.
Qed.

Lemma contains_slash_strftime d : contains "/" (strftime d) = false.
Proof.
  unfold strftime. by rewrite !contains_app, !contains_slash_zfill.
Qed.

(** A string without the separator is one field. *)
Lemma split_one_field sep (cur s : string) :
  contains sep s = false → split sep cur s = [cur +:+ s].
Proof.
  revert cur. induction s as [|c s IH]; intros cur Hs.
  - cbn. by rewrite string_app_nil_r.
  - cbn [contains] in Hs. apply orb_false_iff in Hs as [Hc Hs].
    apply bool_decide_eq_false in Hc. cbn [split].
    rewrite decide_False by done. rewrite IH by done.
    by rewrite string_app_assoc.
Qed.

Section pathlib_facts.
Import Hw2.

Lemma splitroot_relative (s : string) :
  contains "/" s = false → splitroot s = ("", s).
Proof.
  destruct s as [|c s]; [done|]. cbn [contains]. intros Hs.
  apply orb_false_iff in Hs as [Hc _]. apply bool_decide_eq_false in Hc.
  unfold splitroot. by rewrite decide_False.
Qed.

(** A file name read as a path is that one component. *)
Lemma Path_of_str_component (s : string) :
  contains "/" s = false → s ≠ "" → s ≠ "." →
  Path_of_str s = {| root := ""; parts := [s] |}.
Proof.
  intros Hs Hne Hdot. unfold Path_of_str.
  rewrite splitroot_relative by done. rewrite split_one_field by done.
  change ("" +:+ s) with s. by rewrite filter_cons_True, filter_nil.
Qed.

Lemma joinpath_component (p : Path) (s : string) :
  contains "/" s = false → s ≠ "" → s ≠ "." →
  joinpath p s = {| root := root p; parts := parts p ++ [s] |}.
Proof.
  intros Hs Hne Hdot. unfold joinpath.
  by rewrite Path_of_str_component.
Qed.

Lemma parent_snoc (p : Path) (s : string) :
  parent {| root := root p; parts := parts p ++ [s] |} = p.
Proof.
  unfold parent. cbn [parts root].
  destruct (parts p ++ [s]) as [|x l] eqn:Heq.
  { by destruct (parts p). }
  rewrite <- Heq, removelast_last. by destruct p.
Qed.

Lemma name_snoc (p : Path) (s : string) :
  name {| root := root p; parts := parts p ++ [s] |} = s.
Proof. unfold name. cbn [parts]. by rewrite last_snoc. Qed.

Lemma concat_snoc (sep : string) (d : list string) (s : string) :
  d ≠ [] →
  String.concat sep (d ++ [s]) = String.concat sep d +:+ sep +:+ s.
Proof.
  induction d as [|x [|y d] IH]; intros Hd; [done|done|].
  change (String.concat sep ((x :: y :: d) ++ [s])) with
    (x +:+ sep +:+ String.concat sep ((y :: d) ++ [s])).
  change (String.concat sep (x :: y :: d)) with
    (x +:+ sep +:+ String.concat sep (y :: d)).
  rewrite IH by done. by rewrite !string_app_assoc.
Qed.

(** The text of a path that ends in the component [s]: a text that
    depends on the directory only, followed by [s]. *)
Lemma str_path_snoc (p : Path) (s : string) :
  s ≠ "" →
  ∃ prefix,
    str_path {| root := root p; parts := parts p ++ [s] |} = prefix +:+ s ∧
    ∀ s', s' ≠ "" →
      str_path {| root := root p; parts := parts p ++ [s'] |} =
      prefix +:+ s'.
Proof.
  intros Hs.
  assert (∀ a b : string, b ≠ "" → a +:+ b ≠ "") as Hne.
  { intros a b Hb Heq. apply (f_equal String.length) in Heq.
    rewrite string_length_app in Heq. destruct b; [done|].
    cbn in Heq. lia. }
  destruct (parts p) as [|x d] eqn:Hd.
  - exists (root p). unfold str_path. cbn [root parts app String.concat].
    split; [by rewrite decide_False by auto|].
    intros s' Hs'. by rewrite decide_False by auto.
  - exists (root p +:+ String.concat "/" (x :: d) +:+ "/").
    unfold str_path. cbn [root parts].
    rewrite !string_app_assoc.
    split.
    + rewrite concat_snoc by done.
      rewrite decide_False; [by rewrite ?string_app_assoc|].
      rewrite <- ?string_app_assoc. auto.
    + intros s' Hs'. rewrite concat_snoc by done.
      rewrite decide_False; [by rewrite ?string_app_assoc|].
      rewrite <- ?string_app_assoc. auto.
Qed.

End pathlib_facts.

(** ** The monad *)

Lemma bind_Returned {A B} (t : list Event) (a : A) (k : A → M B) :
  mbind (M:=M) k (t, Returned a) = (t ++ (k a).1, (k a).2).
Proof. unfold mbind, M_bind. by destruct (k a). Qed.

Lemma bind_Raised {A B} (t : list Event) (e : exn) (k : A → M B) :
  mbind (M:=M) k (t, Raised e) = (t, Raised e).
Proof. done. Qed.

Lemma try_except_Returned {A} (t : list Event) (a : A) (h : exn → M A) :
  try_except (t, Returned a) h = (t, Returned a).
Proof. done. Qed.

Lemma try_except_Raised {A} (t : list Event) (e : exn) (h : exn → M A) :
  try_except (t, Raised e) h = (t ++ (h e).1, (h e).2).
Proof. unfold try_except. by destruct (h e). Qed.

Lemma fs_events_app t1 t2 : fs_events (t1 ++ t2) = fs_events t1 ++ fs_events t2.
Proof. apply filter_app. Qed.

Lemma fs_events_cons e t :
  fs_events (e :: t) = (if is_fs_event e then [e] else []) ++ fs_events t.
Proof.
  unfold fs_events. rewrite filter_cons.
  destruct (is_fs_event e); by case_decide.
Qed.

Lemma provider_calls_cons e t :
  provider_calls (e :: t) =
  (if is_completion e then 1 else 0) + provider_calls t.
Proof.
  unfold provider_calls. rewrite filter_cons.
  destruct (is_completion e); by case_decide.
Qed.

Lemma provider_calls_app t1 t2 :
  provider_calls (t1 ++ t2) = provider_calls t1 + provider_calls t2.
Proof. unfold provider_calls. by rewrite filter_app, length_app. Qed.

Lemma fs_events_retry_trace messages k : fs_events (retry_trace messages k) = [].
Proof.
  unfold retry_trace. rewrite fs_events_app.
  induction k as [|k IH]; [done|].
  change (S k) with (1 + k) at 1.
  rewrite replicate_add, join_app, fs_events_app in *. exact IH.
Qed.

(** ** The fan-out *)

Lemma regular_records_cons n p ps :
  regular_records n (p :: ps) =
  new_QueryWithDimensions ("SYN" +:+ fmt_03d n) p.2 (Some p.1) "regular"
    :: regular_records (S n) ps.
Proof.
  unfold regular_records. rewrite imap_cons, Nat.add_0_r. f_equal.
  apply imap_ext. intros i x _. cbn. by rewrite Nat.add_succ_r.
Qed.

Lemma regular_records_app n ps1 ps2 :
  regular_records n (ps1 ++ ps2) =
  regular_records n ps1 ++ regular_records (n + length ps1) ps2.
Proof.
  unfold regular_records. rewrite imap_app. f_equal.
  apply imap_ext. intros i x _. by rewrite Nat.add_assoc.
Qed.

Lemma length_regular_records n ps : length (regular_records n ps) = length ps.
Proof. apply length_imap. Qed.

Lemma regular_records_ids n ps :
  id <$> regular_records n ps =
  (λ k, "SYN" +:+ fmt_03d k) <$> seq n (length ps).
Proof.
  unfold regular_records. rewrite fmap_imap.
  apply (imap_seq ps (λ k, "SYN" +:+ fmt_03d k) n).
Qed.

Lemma foldl_append_regular t all_queries query_id qs :
  foldl (append_regular t) (all_queries, query_id) qs =
  (all_queries ++ regular_records query_id ((λ q, (t, q)) <$> qs),
   query_id + length qs).
Proof.
  revert all_queries query_id.
  induction qs as [|q qs IH]; intros all_queries query_id.
  - cbn. by rewrite app_nil_r, Nat.add_0_r.
  - cbn [foldl append_regular]. rewrite IH.
    rewrite fmap_cons, regular_records_cons, <- (assoc_L (++)).
    cbn [length]. f_equal; [|lia].
    by rewrite Nat.add_1_r.
Qed.

Section collect_facts.
Variable task : nat → DimensionTuple → M (list string).
Variable dimension_tuples : list DimensionTuple.

(** The loop returns, whatever the tasks do, and what it returns is made
    of the queries of the futures in the order of their completion. *)
Lemma collect_futures_value order all_queries query_id :
  (collect_futures task dimension_tuples order all_queries query_id).2 =
  Returned
    (all_queries ++
     regular_records query_id
       (order ≫= future_queries task dimension_tuples)).
Proof.
  revert all_queries query_id.
  induction order as [|i order IH]; intros all_queries query_id.
  - cbn. by rewrite app_nil_r.
  - cbn [collect_futures]. rewrite bind_cons. unfold future_queries at 1.
    destruct (dimension_tuples !! i) as [t|]; [|apply IH].
    destruct (task i t) as [tr [qs|e]]; cbn [snd].
    + rewrite bind_Returned.
      assert ((match qs with
               | [] => mret (all_queries, query_id)
               | _ :: _ =>
                   mret (foldl (append_regular t) (all_queries, query_id) qs)
               end : M _) =
              ([], Returned
                 (all_queries ++
                    regular_records query_id ((λ q, (t, q)) <$> qs),
                  query_id + length qs))) as ->.
      { destruct qs as [|q qs].
        - cbn. by rewrite app_nil_r, Nat.add_0_r.
        - by rewrite foldl_append_regular. }
      cbn [fst snd]. rewrite try_except_Returned. rewrite bind_Returned. cbn [fst snd].
      rewrite IH, regular_records_app, length_fmap.
      by rewrite (assoc_L (++)).
    + rewrite bind_Raised, try_except_Raised. unfold print, emit.
      rewrite bind_Returned. cbn [fst snd mret M_ret].
      rewrite bind_Returned. cbn [fst snd].
      by rewrite IH.
Qed.

Lemma generate_queries_parallel_with_value order :
  (generate_queries_parallel_with task dimension_tuples order).2 =
  Returned
    (regular_records 1 (order ≫= future_queries task dimension_tuples)).
Proof.
  unfold generate_queries_parallel_with, print, emit.
  rewrite bind_Returned. cbn [snd]. apply collect_futures_value.
Qed.

(** A future that fails hands nothing over. *)
Lemma future_fails_queries i :
  future_fails task dimension_tuples i →
  future_queries task dimension_tuples i = [].
Proof.
  unfold future_fails, future_queries. intros Hfail.
  destruct (dimension_tuples !! i) as [t|]; [|done].
  by destruct (Hfail t eq_refl) as [[e ->] | ->].
Qed.

Lemma bind_filter_failed order f :
  future_fails task dimension_tuples f →
  filter (λ i, i ≠ f) order ≫= future_queries task dimension_tuples =
  order ≫= future_queries task dimension_tuples.
Proof.
  intros Hfail. induction order as [|i order IH]; [done|].
  rewrite filter_cons, !bind_cons. case_decide as Hi.
  - by rewrite bind_cons, IH.
  - subst i. by rewrite future_fails_queries, IH.
Qed.

End collect_facts.

Section generator_facts.
Context `{External}.

Lemma generate_queries_for_tuple_answers completion t ql :
  answers completion parse_QueriesList ql →
  (generate_queries_for_tuple completion t).2 = Returned (queries ql).
Proof.
  intros (k & Hk & Hfail & Hok). unfold generate_queries_for_tuple.
  by rewrite (call_llm_first_success _ _ _ k ql Hk Hfail Hok).
Qed.

Lemma generate_queries_for_tuple_never completion t :
  never_answers completion parse_QueriesList →
  (generate_queries_for_tuple completion t).2 = Returned [].
Proof.
  intros Hnever. unfold generate_queries_for_tuple.
  destruct (Hnever 2) as [e He]; [lia|].
  rewrite (call_llm_all_fail _ _ _ e); [done| |done].
  intros j Hj. apply Hnever. lia.
Qed.

Lemma length_collected task dimension_tuples order K :
  (∀ i, i ∈ order →
        length (future_queries task dimension_tuples i) = K) →
  length (order ≫= future_queries task dimension_tuples) = length order * K.
Proof.
  induction order as [|i order IH]; intros HK; [done|].
  rewrite bind_cons, length_app, HK by left.
  rewrite IH by (intros; apply HK; by right). done.
Qed.

(** C3.  If, for every tuple, the provider answers the task of that tuple
    with exactly [K] query strings, and every future is collected once (in
    any order of completion), then [generate_queries_parallel] returns
    exactly T*K records for T tuples.  Each record is tagged "regular" and
    carries the tuple whose task produced its query.  The identifiers are
    SYN001, SYN002, ... in the order of collection, without gap or repeat:
    the counter is advanced by the collecting loop alone, the tasks hand
    back bare query strings. *)
Theorem generate_queries_parallel_count (completion : nat → nat → outcome)
    (dimension_tuples : list DimensionTuple) (order : list nat) (K : nat) :
  order ≡ₚ seq 0 (length dimension_tuples) →
  (∀ i t, dimension_tuples !! i = Some t →
          ∃ ql, answers (completion i) parse_QueriesList ql ∧
                length (queries ql) = K) →
  ∃ records,
    (generate_queries_parallel completion dimension_tuples order).2 =
      Returned records ∧
    length records = length dimension_tuples * K ∧
    Forall (λ q,
              query_type q = "regular" ∧
              ∃ i t ql,
                dimension_tuples !! i = Some t ∧
                answers (completion i) parse_QueriesList ql ∧
                query q ∈ queries ql ∧
                dimension_tuple q = Some t)
           records ∧
    id <$> records =
      (λ n, "SYN" +:+ fmt_03d n) <$> seq 1 (length dimension_tuples * K).
Proof.
  intros Horder Hprovider.
  set (task := λ i dim_tuple,
                 generate_queries_for_tuple (completion i) dim_tuple).
  assert (∀ i t, dimension_tuples !! i = Some t →
            ∃ ql, answers (completion i) parse_QueriesList ql ∧
                  length (queries ql) = K ∧
                  future_queries task dimension_tuples i =
                    (λ q, (t, q)) <$> queries ql) as Hfuture.
  { intros i t Hi. destruct (Hprovider i t Hi) as (ql & Hql & HK).
    exists ql. split_and!; [done..|].
    unfold future_queries, task. rewrite Hi.
    by rewrite (generate_queries_for_tuple_answers _ _ ql). }
  assert (∀ i, i ∈ order → is_Some (dimension_tuples !! i)) as Hin.
  { intros i Hi. rewrite Horder in Hi. apply elem_of_seq in Hi.
    apply lookup_lt_is_Some. lia. }
  assert (length (order ≫= future_queries task dimension_tuples) =
          length dimension_tuples * K) as Hlen.
  { rewrite (length_collected _ _ _ K).
    - by rewrite Horder, length_seq.
    - intros i [t Hi]%Hin.
      destruct (Hfuture i t Hi) as (ql & _ & HK & ->).
      by rewrite length_fmap. }
  eexists. split; [apply generate_queries_parallel_with_value|].
  fold task. split_and!.
  - by rewrite length_regular_records.
  - apply Forall_forall. intros q Hq.
    apply elem_of_lookup_imap in Hq as (n & [t' q'] & -> & Hp).
    apply list_elem_of_lookup_2, list_elem_of_bind in Hp as (i & Hp & Hi).
    destruct (Hin i Hi) as [t Ht].
    destruct (Hfuture i t Ht) as (ql & Hql & _ & Heq).
    rewrite Heq in Hp.
    apply list_elem_of_fmap in Hp as (q0 & [= -> ->] & Hq0).
    split; [done|]. by exists i, t, ql.
  - by rewrite regular_records_ids, Hlen.
Qed.

(** C7.  A task that fails is isolated.  Whatever the tasks do, the
    collecting loop returns; if the future of index [f] raises or comes
    back empty, the records returned are those of the run in which that
    future is left out: it contributes nothing, and the records made for
    the other futures, identifiers included, are unchanged.  In particular,
    of two tuples, if the provider fails every attempt for one and answers
    [K] queries for the other, [generate_queries_parallel] returns exactly
    the [K] records of the surviving tuple. *)
Theorem fan_out_isolates_failures :
  (∀ (task : nat → DimensionTuple → M (list string))
     (dimension_tuples : list DimensionTuple) (order : list nat) (f : nat),
     future_fails task dimension_tuples f →
     ∃ records,
       (generate_queries_parallel_with task dimension_tuples order).2 =
         Returned records ∧
       (generate_queries_parallel_with task dimension_tuples
          (filter (λ i, i ≠ f) order)).2 = Returned records) ∧
  (∀ (completion : nat → nat → outcome) (t0 t1 survivor : DimensionTuple)
     (order : list nat) (f s : nat) (ql : QueriesList),
     order ≡ₚ [0; 1] →
     f < 2 → f ≠ s →
     [t0; t1] !! s = Some survivor →
     never_answers (completion f) parse_QueriesList →
     answers (completion s) parse_QueriesList ql →
     ∃ records,
       (generate_queries_parallel completion [t0; t1] order).2 =
         Returned records ∧
       records = regular_records 1 ((λ q, (survivor, q)) <$> queries ql) ∧
       length records = length (queries ql)).
Proof.
  split.
  - intros task dimension_tuples order f Hfail. eexists.
    rewrite !generate_queries_parallel_with_value.
    by rewrite bind_filter_failed.
  - intros completion t0 t1 survivor order f s ql Horder Hf Hfs Hs
      Hnever Hanswers.
    set (task := λ i dim_tuple,
                   generate_queries_for_tuple (completion i) dim_tuple).
    assert (future_queries task [t0; t1] f = []) as Hfq.
    { apply future_fails_queries. intros t _. right.
      by apply generate_queries_for_tuple_never. }
    assert (future_queries task [t0; t1] s =
            (λ q, (survivor, q)) <$> queries ql) as Hsq.
    { unfold future_queries, task. rewrite Hs.
      by rewrite (generate_queries_for_tuple_answers _ _ ql). }
    assert (s < 2) by (apply lookup_lt_Some in Hs; cbn in Hs; lia).
    eexists. split; [apply generate_queries_parallel_with_value|].
    fold task.
    assert (order ≫= future_queries task [t0; t1] =
            (λ q, (survivor, q)) <$> queries ql) as ->.
    { apply Permutation_sym, Permutation_length_2_inv in Horder
        as [-> | ->]; cbn [mbind list_bind mjoin];
        assert ((f = 0 ∧ s = 1) ∨ (f = 1 ∧ s = 0)) as [[-> ->] | [-> ->]]
          by lia;
        rewrite ?bind_cons, ?Hfq, ?Hsq; cbn; by rewrite ?app_nil_r. }
    split; [done|].
    by rewrite length_regular_records, length_fmap.
Qed.

End generator_facts.

(** ** Stage by stage *)

Lemma bind_snd {A B} (m : M A) (a : A) (k : A → M B) :
  m.2 = Returned a → (m ≫= k).2 = (k a).2.
Proof. destruct m as [t r]. cbn [snd]. intros ->. by rewrite bind_Returned. Qed.

Lemma bind_fst {A B} (m : M A) (a : A) (k : A → M B) :
  m.2 = Returned a → (m ≫= k).1 = m.1 ++ (k a).1.
Proof. destruct m as [t r]. cbn [snd]. intros ->. by rewrite bind_Returned. Qed.

Lemma call_llm_trace {A} completion messages
    (response_format : string → exn + A) :
  ∃ k r, k < 3 ∧
         call_llm completion messages response_format =
         (retry_trace messages k, r).
Proof.
  unfold call_llm. cbn [seq]. rewrite !call_llm_for_cons. cbn [call_llm_for].
  destruct (attempt_result _ _ 0);
    [|exists 0; eexists; split; [lia|reflexivity]].
  destruct (attempt_result _ _ 1);
    [|exists 1; eexists; split; [lia|reflexivity]].
  destruct (attempt_result _ _ 2);
    exists 2; eexists; (split; [lia|reflexivity]).
Qed.

Section stage_facts.
Context `{External}.

(** The three generators of query strings have one shape: they return,
    whatever the provider does, and leave the file system alone. *)
Lemma guarded_call_returns {R A} completion messages
    (response_format : string → exn + R) (attr : string)
    (field : R → list A) (line : string) :
  ∃ t v,
    try_except
      (response ← call_llm completion messages response_format;
       getattr attr field response)
      (λ e, print (line +:+ str_exn e) ;; mret []) = (t, Returned v) ∧
    fs_events t = [].
Proof.
  destruct (call_llm_trace completion messages response_format)
    as (k & r & _ & ->).
  destruct r as [[v|]|e]; eexists _, _; (split; [reflexivity|]);
    cbn [fst]; rewrite ?fs_events_app, fs_events_retry_trace; done.
Qed.

Lemma generate_queries_for_tuple_returns completion t :
  ∃ tr qs, generate_queries_for_tuple completion t = (tr, Returned qs) ∧
           fs_events tr = [].
Proof. apply guarded_call_returns. Qed.

Lemma generate_ambiguous_queries_returns completion num :
  ∃ tr qs, generate_ambiguous_queries completion num = (tr, Returned qs) ∧
           fs_events tr = [].
Proof. apply guarded_call_returns. Qed.

Lemma generate_adversarial_queries_returns completion num :
  ∃ tr qs, generate_adversarial_queries completion num = (tr, Returned qs) ∧
           fs_events tr = [].
Proof. apply guarded_call_returns. Qed.

Lemma generate_dimension_tuples_returns completion :
  ∃ tr dts, generate_dimension_tuples completion = (tr, Returned dts) ∧
            fs_events tr = [].
Proof.
  unfold generate_dimension_tuples.
  destruct (call_llm_trace completion [Message "user" tuples_prompt]
              parse_DimensionTuplesList) as (k & r & _ & ->).
  destruct r as [[v|]|e]; eexists _, _; (split; [reflexivity|]);
    cbn [fst]; rewrite ?fs_events_app, fs_events_retry_trace; done.
Qed.

Lemma collect_futures_quiet task dimension_tuples order all_queries query_id :
  (∀ i t, fs_events (task i t).1 = []) →
  fs_events
    (collect_futures task dimension_tuples order all_queries query_id).1 = [].
Proof.
  intros Hquiet. revert all_queries query_id.
  induction order as [|i order IH]; intros all_queries query_id; [done|].
  cbn [collect_futures].
  destruct (dimension_tuples !! i) as [t|]; [|apply IH].
  specialize (Hquiet i t).
  destruct (task i t) as [tr [qs|e]]; cbn [fst] in Hquiet.
  - rewrite bind_Returned.
    destruct qs as [|q qs]; cbn [mret M_ret fst snd];
      rewrite try_except_Returned, bind_Returned; cbn [fst];
      by rewrite !fs_events_app, Hquiet, IH.
  - rewrite bind_Raised, try_except_Raised. unfold print, emit.
    rewrite bind_Returned. cbn [fst snd mret M_ret].
    rewrite bind_Returned. cbn [fst snd].
    by rewrite !fs_events_app, Hquiet, IH.
Qed.

Lemma generate_queries_parallel_returns completion dimension_tuples order :
  ∃ tr,
    generate_queries_parallel completion dimension_tuples order =
    (tr, Returned
           (regular_records 1
              (order ≫=
               future_queries
                 (λ i t, generate_queries_for_tuple (completion i) t)
                 dimension_tuples))) ∧
    fs_events tr = [].
Proof.
  eexists. split.
  - apply injective_projections; [reflexivity|].
    apply generate_queries_parallel_with_value.
  - unfold generate_queries_parallel, generate_queries_parallel_with.
    unfold print, emit. rewrite bind_Returned. cbn [fst].
    rewrite fs_events_app. cbn.
    apply collect_futures_quiet. intros i t.
    by destruct (generate_queries_for_tuple_returns (completion i) t)
      as (tr & qs & -> & ?).
Qed.

Lemma save_queries_to_csv_returns fs queries path :
  is_dir fs (parent path) = true →
  (save_queries_to_csv fs queries path).2 = Returned tt.
Proof.
  intros Hdir. destruct queries; [done|].
  unfold save_queries_to_csv. by rewrite Hdir.
Qed.

End stage_facts.

(** ** The orchestrator *)

Section main_facts.
Context `{External}.

Lemma main_no_api_key env :
  has_api_key env = false →
  main env =
  ([EPrint "Error: OPENAI_API_KEY environment variable not set."],
   Returned ExitNoApiKey).
Proof. intros Hkey. unfold main. by rewrite Hkey. Qed.

(** The run that stops after the first stage. *)
Lemma main_no_tuples env t1 :
  has_api_key env = true →
  generate_dimension_tuples (tuples_completion env) = (t1, Returned []) →
  main env = (no_tuples_trace t1, Returned ExitNoTuples).
Proof.
  intros Hkey Hgen. unfold main. rewrite Hkey, Hgen. cbn [negb].
  unfold print, emit. by rewrite !bind_Returned.
Qed.

(** The file name of [main] is one path component. *)
Lemma output_file_name_component env :
  contains "/" (output_file_name env) = false ∧
  output_file_name env ≠ "" ∧ output_file_name env ≠ ".".
Proof.
  unfold output_file_name. split_and!.
  - by rewrite !contains_app, contains_slash_strftime.
  - discriminate.
  - discriminate.
Qed.

Lemma output_path_parts env :
  output_path env =
  {| root := root script_dir;
     parts := parts script_dir ++ [output_file_name env] |}.
Proof.
  destruct (output_file_name_component env) as (? & ? & ?).
  by apply joinpath_component.
Qed.

Lemma parent_output_path env : parent (output_path env) = script_dir.
Proof. rewrite output_path_parts. apply parent_snoc. Qed.

Lemma name_output_path env :
  name (output_path env) = output_file_name env.
Proof. rewrite output_path_parts. apply name_snoc. Qed.

(** After the [mkdir] the directory of the output path is there. *)
Lemma file_system_at_save_dir env :
  is_dir (file_system_at_save env) script_dir = true.
Proof.
  apply bool_decide_eq_true. right. unfold file_system_at_save.
  cbn [apply_event directories]. rewrite fmap_cons. set_solver.
Qed.

Lemma get_output_csv_path_main env :
  get_output_csv_path (now env) "synthetic_queries_for_analysis"
    (Some (AsPath script_dir)) "csv" =
  ([EMkdir script_dir], Returned (output_path env)).
Proof.
  unfold get_output_csv_path. cbn [Path_of].
  change (joinpath script_dir _) with (output_path env).
  by rewrite parent_output_path.
Qed.

Lemma save_queries_to_csv_main env all_queries :
  (save_queries_to_csv
     (apply_event (file_system env) (EMkdir (parent (output_path env))))
     all_queries (output_path env)).2 = Returned tt.
Proof.
  apply save_queries_to_csv_returns. rewrite (parent_output_path env).
  apply file_system_at_save_dir.
Qed.

(** The run that goes through all the stages. *)
Lemma main_all_stages env t1 t2 t3 t4 t0 dts regular raw_amb raw_adv :
  has_api_key env = true →
  generate_dimension_tuples (tuples_completion env) =
    (t1, Returned (t0 :: dts)) →
  generate_queries_parallel (queries_completion env) (t0 :: dts)
    (completion_order env) = (t2, Returned regular) →
  generate_ambiguous_queries (ambiguous_completion env)
    NUM_AMBIGUOUS_QUERIES = (t3, Returned raw_amb) →
  generate_adversarial_queries (adversarial_completion env)
    NUM_ADVERSARIAL_QUERIES = (t4, Returned raw_adv) →
  let ambiguous := ambiguous_records raw_amb in
  let adversarial := adversarial_records raw_adv in
  let all_queries :=
    shuffle (randbelow env) (regular ++ ambiguous ++ adversarial) in
  (main env).2 = Returned (ExitDone regular ambiguous adversarial all_queries)
  ∧
  (main env).1 =
    done_trace env t1 t2 t3 t4 (length (t0 :: dts))
      regular ambiguous adversarial all_queries.
Proof.
  intros Hkey Hgen Hreg Hamb Hadv ambiguous adversarial all_queries.
  unfold main. rewrite Hkey. cbn [negb].
  rewrite get_output_csv_path_main. unfold print, emit.
  split.
  - rewrite (bind_snd _ tt) by done. rewrite Hgen.
    rewrite (bind_snd _ (t0 :: dts)) by done. cbv beta iota.
    rewrite !(bind_snd _ tt) by done. rewrite Hreg.
    rewrite (bind_snd _ regular) by done.
    rewrite (bind_snd _ tt) by done. rewrite Hamb.
    rewrite (bind_snd _ raw_amb) by done.
    rewrite (bind_snd _ tt) by done. rewrite Hadv.
    rewrite (bind_snd _ raw_adv) by done. cbv zeta.
    rewrite (bind_snd _ (output_path env)) by done.
    rewrite (bind_snd _ tt) by apply save_queries_to_csv_main.
    by rewrite !(bind_snd _ tt) by done.
  - rewrite (bind_fst _ tt) by done. rewrite Hgen.
    rewrite (bind_fst _ (t0 :: dts)) by done. cbv beta iota.
    rewrite !(bind_fst _ tt) by done. rewrite Hreg.
    rewrite (bind_fst _ regular) by done.
    rewrite (bind_fst _ tt) by done. rewrite Hamb.
    rewrite (bind_fst _ raw_amb) by done.
    rewrite (bind_fst _ tt) by done. rewrite Hadv.
    rewrite (bind_fst _ raw_adv) by done. cbv zeta.
    rewrite (bind_fst _ (output_path env)) by done.
    rewrite (bind_fst _ tt) by apply save_queries_to_csv_main.
    rewrite !(bind_fst _ tt) by done.
    rewrite parent_output_path.
    cbn [fst snd mret M_ret app]. reflexivity.
Qed.

(** The three ways a run of [main] can go. *)
Lemma main_cases env :
  (has_api_key env = false ∧ (main env).2 = Returned ExitNoApiKey) ∨
  (has_api_key env = true ∧
   ∃ t1,
     generate_dimension_tuples (tuples_completion env) = (t1, Returned []) ∧
     fs_events t1 = [] ∧
     main env = (no_tuples_trace t1, Returned ExitNoTuples)) ∨
  (has_api_key env = true ∧
   ∃ t1 t2 t3 t4 t0 dts raw_amb raw_adv,
     let regular :=
       regular_records 1
         (completion_order env ≫=
          future_queries (query_task env) (t0 :: dts)) in
     let ambiguous := ambiguous_records raw_amb in
     let adversarial := adversarial_records raw_adv in
     let all_queries :=
       shuffle (randbelow env) (regular ++ ambiguous ++ adversarial) in
     generate_dimension_tuples (tuples_completion env) =
       (t1, Returned (t0 :: dts)) ∧
     generate_ambiguous_queries (ambiguous_completion env)
       NUM_AMBIGUOUS_QUERIES = (t3, Returned raw_amb) ∧
     generate_adversarial_queries (adversarial_completion env)
       NUM_ADVERSARIAL_QUERIES = (t4, Returned raw_adv) ∧
     fs_events t1 = [] ∧ fs_events t2 = [] ∧
     fs_events t3 = [] ∧ fs_events t4 = [] ∧
     main env =
       (done_trace env t1 t2 t3 t4 (length (t0 :: dts))
          regular ambiguous adversarial all_queries,
        Returned (ExitDone regular ambiguous adversarial all_queries))).
Proof.
  destruct (has_api_key env) eqn:Hkey.
  2: { left. split; [done|]. by rewrite main_no_api_key. }
  right.
  destruct (generate_dimension_tuples_returns (tuples_completion env))
    as (t1 & dts & Hgen & Hq1).
  destruct dts as [|t0 dts].
  { left. split; [done|]. exists t1. split_and!; [done..|].
    by apply main_no_tuples. }
  right. split; [done|].
  destruct (generate_queries_parallel_returns (queries_completion env)
              (t0 :: dts) (completion_order env)) as (t2 & Hreg & Hq2).
  destruct (generate_ambiguous_queries_returns (ambiguous_completion env)
              NUM_AMBIGUOUS_QUERIES) as (t3 & raw_amb & Hamb & Hq3).
  destruct (generate_adversarial_queries_returns (adversarial_completion env)
              NUM_ADVERSARIAL_QUERIES) as (t4 & raw_adv & Hadv & Hq4).
  exists t1, t2, t3, t4, t0, dts, raw_amb, raw_adv.
  intros regular ambiguous adversarial all_queries.
  split_and!; [done..|].
  destruct (main_all_stages env t1 t2 t3 t4 t0 dts regular raw_amb raw_adv
              Hkey Hgen Hreg Hamb Hadv) as [Hvalue Htrace].
  apply injective_projections; [exact Htrace|exact Hvalue].
Qed.

(** [random.shuffle] permutes. *)
Lemma swap_Permutation {A} (x : list A) i j : swap x i j ≡ₚ x.
Proof.
  unfold swap.
  destruct (x !! j) as [xj|] eqn:Hj; [|done].
  destruct (x !! i) as [xi|] eqn:Hi; [|done].
  by apply Permutation_insert_swap.
Qed.

Lemma length_swap {A} (x : list A) i j : length (swap x i j) = length x.
Proof.
  unfold swap. destruct (x !! j), (x !! i); [|done..].
  by rewrite !length_insert.
Qed.

(** Inside the list, [swap] is the exchange of two cells; [shuffle] calls
    it inside the list only. *)
Lemma swap_in_range {A} (x : list A) i j :
  i < length x → j < length x →
  ∃ xi xj, x !! i = Some xi ∧ x !! j = Some xj ∧
           swap x i j = <[j := xi]> (<[i := xj]> x).
Proof.
  intros [xi Hi]%lookup_lt_is_Some [xj Hj]%lookup_lt_is_Some.
  exists xi, xj. unfold swap. by rewrite Hi, Hj.
Qed.

Lemma shuffle_indices_in_range {A} (randbelow : nat → nat) (x : list A) i :
  i ∈ reverse (seq 1 (length x - 1)) →
  i < length x ∧ randbelow (i + 1) `mod` (i + 1) < length x.
Proof.
  rewrite elem_of_reverse, elem_of_seq. intros [? ?].
  pose proof (Nat.mod_upper_bound (randbelow (i + 1)) (i + 1)). lia.
Qed.

Lemma shuffle_Permutation {A} (randbelow : nat → nat) (x : list A) :
  shuffle randbelow x ≡ₚ x.
Proof.
  unfold shuffle. generalize (reverse (seq 1 (length x - 1))) as idxs.
  intros idxs. revert x.
  induction idxs as [|i idxs IH]; intros x; [done|].
  cbn [foldl]. rewrite IH. apply swap_Permutation.
Qed.

End main_facts.

(** ** Persistence *)

Section persistence_facts.
Context `{External}.

Lemma save_queries_to_csv_nonempty fs q queries path :
  is_dir fs (parent path) = true →
  save_queries_to_csv fs (q :: queries) path =
  ([EToCsv path (to_row <$> q :: queries);
    EPrint ("Saved " +:+ str_nat (length (q :: queries)) +:+
            " queries to " +:+ str_path path)],
   Returned tt).
Proof.
  intros Hdir. unfold save_queries_to_csv. by rewrite Hdir.
Qed.



End persistence_facts.

(** ** The records of a run *)

Lemma ambiguous_records_ids raw :
  id <$> ambiguous_records raw =
  (λ n, "AMB" +:+ fmt_03d n) <$> seq 1 (length raw).
Proof.
  unfold ambiguous_records. rewrite fmap_imap.
  rewrite <- (imap_seq raw (λ n, "AMB" +:+ fmt_03d n) 1).
  apply imap_ext. intros i q _. cbn. by rewrite Nat.add_1_r.
Qed.

Lemma adversarial_records_ids raw :
  id <$> adversarial_records raw =
  (λ n, "ADV" +:+ fmt_03d n) <$> seq 1 (length raw).
Proof.
  unfold adversarial_records. rewrite fmap_imap.
  rewrite <- (imap_seq raw (λ n, "ADV" +:+ fmt_03d n) 1).
  apply imap_ext. intros i q _. cbn. by rewrite Nat.add_1_r.
Qed.

Lemma prefixed_id_inj (p1 p2 : string) n1 n2 :
  p1 ∈ ["SYN"; "AMB"; "ADV"] → p2 ∈ ["SYN"; "AMB"; "ADV"] →
  p1 +:+ fmt_03d n1 = p2 +:+ fmt_03d n2 → p1 = p2 ∧ n1 = n2.
Proof.
  intros Hp1 Hp2 Heq.
  repeat (apply elem_of_cons in Hp1 as [->|Hp1]);
    [| | |by apply elem_of_nil in Hp1];
    (repeat (apply elem_of_cons in Hp2 as [->|Hp2]);
       [| | |by apply elem_of_nil in Hp2]);
    cbv [String.append] in Heq; try discriminate Heq;
    (split; [done|]); apply fmt_03d_inj; congruence.
Qed.

Lemma numbered_ids_NoDup (p : string) n len :
  p ∈ ["SYN"; "AMB"; "ADV"] →
  NoDup ((λ k, p +:+ fmt_03d k) <$> seq n len).
Proof.
  intros Hp. apply NoDup_fmap_2_strong; [|apply NoDup_seq].
  intros a b _ _ Heq. by destruct (prefixed_id_inj p p a b Hp Hp Heq).
Qed.

Lemma numbered_ids_disjoint (p1 p2 : string) n1 len1 n2 len2 x :
  p1 ∈ ["SYN"; "AMB"; "ADV"] → p2 ∈ ["SYN"; "AMB"; "ADV"] → p1 ≠ p2 →
  x ∈ (λ k, p1 +:+ fmt_03d k) <$> seq n1 len1 →
  x ∉ (λ k, p2 +:+ fmt_03d k) <$> seq n2 len2.
Proof.
  intros Hp1 Hp2 Hne (a & -> & _)%list_elem_of_fmap
    (b & Heq & _)%list_elem_of_fmap.
  by destruct (prefixed_id_inj p1 p2 a b Hp1 Hp2 Heq).
Qed.

Lemma regular_records_invariant n pairs :
  1 ≤ n → Forall record_invariant (regular_records n pairs).
Proof.
  intros Hn. apply Forall_forall. intros q Hq.
  apply elem_of_lookup_imap in Hq as (k & [t q'] & -> & _).
  unfold record_invariant. cbn.
  split_and!; [set_solver| |done|done|done].
  exists (n + k). split; [lia|done].
Qed.

Lemma ambiguous_records_invariant raw :
  Forall record_invariant (ambiguous_records raw).
Proof.
  apply Forall_forall. intros q Hq.
  apply elem_of_lookup_imap in Hq as (k & q' & -> & _).
  unfold record_invariant. cbn.
  split_and!; [set_solver| | |done|done].
  - exists (k + 1). split; [lia|done].
  - split; [by intros [? [=]]|done].
Qed.

Lemma adversarial_records_invariant raw :
  Forall record_invariant (adversarial_records raw).
Proof.
  apply Forall_forall. intros q Hq.
  apply elem_of_lookup_imap in Hq as (k & q' & -> & _).
  unfold record_invariant. cbn.
  split_and!; [set_solver| | |done|done].
  - exists (k + 1). split; [lia|done].
  - split; [by intros [? [=]]|done].
Qed.

Lemma all_ids_NoDup pairs raw_amb raw_adv :
  NoDup (id <$> (regular_records 1 pairs ++ ambiguous_records raw_amb ++
                 adversarial_records raw_adv)).
Proof.
  rewrite !fmap_app, regular_records_ids, ambiguous_records_ids,
    adversarial_records_ids.
  assert ("SYN" ∈ ["SYN"; "AMB"; "ADV"]) by set_solver.
  assert ("AMB" ∈ ["SYN"; "AMB"; "ADV"]) by set_solver.
  assert ("ADV" ∈ ["SYN"; "AMB"; "ADV"]) by set_solver.
  apply NoDup_app. split_and!.
  - by apply numbered_ids_NoDup.
  - intros x Hx [Hamb|Hadv]%elem_of_app.
    + by eapply (numbered_ids_disjoint "SYN" "AMB").
    + by eapply (numbered_ids_disjoint "SYN" "ADV").
  - apply NoDup_app. split_and!.
    + by apply numbered_ids_NoDup.
    + intros x Hx. by eapply (numbered_ids_disjoint "AMB" "ADV").
    + by apply numbered_ids_NoDup.
Qed.

(** ** The pipeline as a whole *)

Section pipeline_facts.
Context `{External}.

(** Records made one per query string carry these strings. *)
Lemma query_imap (f : nat → string → QueryWithDimensions)
    (raw : list string) :
  (∀ i q, query (f i q) = q) → query <$> imap f raw = raw.
Proof.
  revert f. induction raw as [|q raw IH]; intros f Hf; [done|].
  cbn. rewrite Hf. f_equal. apply IH. intros i q'. apply Hf.
Qed.

(** Only the file-system operations of a trace act on the file system. *)
Lemma apply_trace_fs_events (fs : FileSystem) (t : list Event) :
  apply_trace fs t = apply_trace fs (fs_events t).
Proof.
  revert fs. induction t as [|ev t IH]; intros fs; [done|].
  rewrite fs_events_cons. destruct ev; cbn; apply IH.
Qed.

(** What a completed run is made of. *)
Lemma main_done_inv env regular ambiguous adversarial all_queries :
  (main env).2 =
    Returned (ExitDone regular ambiguous adversarial all_queries) →
  ∃ t1 t2 t3 t4 n_tuples pairs raw_amb raw_adv,
    regular = regular_records 1 pairs ∧
    ambiguous = ambiguous_records raw_amb ∧
    adversarial = adversarial_records raw_adv ∧
    all_queries =
      shuffle (randbelow env) (regular ++ ambiguous ++ adversarial) ∧
    fs_events t1 = [] ∧ fs_events t2 = [] ∧
    fs_events t3 = [] ∧ fs_events t4 = [] ∧
    (main env).1 =
      done_trace env t1 t2 t3 t4 n_tuples
        regular ambiguous adversarial all_queries.
Proof.
  intros Hdone.
  destruct (main_cases env)
    as [[_ Hrun]|[(_ & t1 & _ & _ & Hrun)|
                  (_ & t1 & t2 & t3 & t4 & t0 & dts & raw_amb & raw_adv
                   & Hrun)]].
  - rewrite Hrun in Hdone. discriminate Hdone.
  - rewrite Hrun in Hdone. discriminate Hdone.
  - cbv zeta in Hrun.
    destruct Hrun as (_ & _ & _ & Hq1 & Hq2 & Hq3 & Hq4 & Hrun).
    rewrite Hrun in Hdone |- *. cbn [fst snd] in Hdone |- *.
    injection Hdone as <- <- <- <-.
    by eexists t1, t2, t3, t4, _, _, raw_amb, raw_adv.
Qed.

(** C4.  When [main] runs to the end, the sequence [all_queries] it hands
    to [save_queries_to_csv] is a permutation of the regular records
    followed by the ambiguous and the adversarial ones: merging and
    shuffling keep every record, and every id, with its multiplicity, and
    change the order only.  The hand-over is the one call of
    [save_queries_to_csv] in the run, on [all_queries]; it comes after the
    creation of the output directory, the only thing done to the file
    system before it. *)
Theorem main_persists_permutation (env : Env)
    (regular ambiguous adversarial all_queries : list QueryWithDimensions) :
  (main env).2 =
    Returned (ExitDone regular ambiguous adversarial all_queries) →
  all_queries ≡ₚ regular ++ ambiguous ++ adversarial ∧
  id <$> all_queries ≡ₚ id <$> (regular ++ ambiguous ++ adversarial) ∧
  ∃ before after,
    (main env).1 =
      before ++
      (save_queries_to_csv (file_system_at_save env) all_queries
         (output_path env)).1 ++
      after ∧
    fs_events before = [EMkdir script_dir] ∧
    apply_trace (file_system env) before = file_system_at_save env ∧
    fs_events after = [].
Proof.
  intros Hdone.
  destruct (main_done_inv env _ _ _ _ Hdone)
    as (t1 & t2 & t3 & t4 & n & pairs & raw_amb & raw_adv
        & -> & -> & -> & Hall & Hq1 & Hq2 & Hq3 & Hq4 & Htrace).
  assert (all_queries ≡ₚ regular_records 1 pairs ++
            ambiguous_records raw_amb ++ adversarial_records raw_adv)
    as Hperm by (rewrite Hall; apply shuffle_Permutation).
  split_and!; [done|by rewrite Hperm|].
  rewrite Htrace. unfold done_trace.
  eexists (_ :: t1 ++ _ :: _ :: t2 ++ _ :: t3 ++ _ :: t4 ++ [_]), _.
  split.
  { cbn [app]. rewrite <- !(assoc_L (++)). cbn [app].
    repeat (f_equal; try (rewrite <- !(assoc_L (++)); cbn [app])). }
  match goal with
  | |- fs_events ?before = _ ∧ _ =>
      assert (fs_events before = [EMkdir script_dir]) as Hbefore
  end.
  { rewrite ?fs_events_cons, ?fs_events_app, ?fs_events_cons, ?fs_events_app,
      ?fs_events_cons, ?fs_events_app, ?fs_events_cons, ?fs_events_app,
      Hq1, Hq2, Hq3, Hq4.
    reflexivity. }
  split_and!.
  - exact Hbefore.
  - by rewrite apply_trace_fs_events, Hbefore.
  - reflexivity.
Qed.

(** C6.  With the API key present, [main] stops early exactly when the
    first stage yields no tuple.  In that case it prints the failure
    message and returns: its trace is that of the first stage between the
    two messages, so no later stage calls the provider and nothing is done
    to the file system; [save_queries_to_csv] is not run.  In every other
    case the run goes through all the stages: its trace is made of the
    traces of the four stages, in order, and of that of
    [save_queries_to_csv]; its regular records are what
    [generate_queries_parallel] returns on the tuples of the first stage,
    its ambiguous and adversarial records are made of what
    [generate_ambiguous_queries] and [generate_adversarial_queries]
    return, one record per query; and what it saves is a permutation of
    all of them.  This is so also when the ambiguous or the adversarial
    generator comes back empty: the category is then empty and the other
    records are kept.  Whenever there is a record, the file is written
    with the rows of all the records. *)
Theorem main_sole_fatal_condition (env : Env) :
  has_api_key env = true →
  ∃ t1 dimension_tuples,
    generate_dimension_tuples (tuples_completion env) =
      (t1, Returned dimension_tuples) ∧
    (dimension_tuples = [] →
       main env = (no_tuples_trace t1, Returned ExitNoTuples) ∧
       fs_events (main env).1 = [] ∧
       provider_calls (main env).1 = provider_calls t1) ∧
    (dimension_tuples ≠ [] →
       ∃ t2 t3 t4 regular raw_amb raw_adv,
         let ambiguous := ambiguous_records raw_amb in
         let adversarial := adversarial_records raw_adv in
         let all_queries :=
           shuffle (randbelow env) (regular ++ ambiguous ++ adversarial) in
         generate_queries_parallel (queries_completion env)
           dimension_tuples (completion_order env) =
           (t2, Returned regular) ∧
         generate_ambiguous_queries (ambiguous_completion env)
           NUM_AMBIGUOUS_QUERIES = (t3, Returned raw_amb) ∧
         generate_adversarial_queries (adversarial_completion env)
           NUM_ADVERSARIAL_QUERIES = (t4, Returned raw_adv) ∧
         main env =
           (done_trace env t1 t2 t3 t4 (length dimension_tuples)
              regular ambiguous adversarial all_queries,
            Returned (ExitDone regular ambiguous adversarial all_queries)) ∧
         query <$> ambiguous = raw_amb ∧
         query <$> adversarial = raw_adv ∧
         all_queries ≡ₚ regular ++ ambiguous ++ adversarial ∧
         (raw_amb = [] →
          ambiguous = [] ∧ all_queries ≡ₚ regular ++ adversarial) ∧
         (raw_adv = [] →
          adversarial = [] ∧ all_queries ≡ₚ regular ++ ambiguous) ∧
         (all_queries ≠ [] →
          fs_events (main env).1 =
            [EMkdir script_dir;
             EToCsv (output_path env) (to_row <$> all_queries)])) ∧
    ((main env).2 = Returned ExitNoTuples ↔ dimension_tuples = []).
Proof.
  intros Hkey.
  destruct (generate_dimension_tuples_returns (tuples_completion env))
    as (t1 & dts & Hgen & Hq1).
  exists t1, dts. split; [done|].
  destruct dts as [|t0 dts].
  { pose proof (main_no_tuples env t1 Hkey Hgen) as Hrun.
    split_and!; [|done|by rewrite Hrun].
    intros _. rewrite Hrun. cbn [fst]. split_and!; [done|..].
    - unfold no_tuples_trace.
      by rewrite fs_events_cons, fs_events_app, Hq1.
    - unfold no_tuples_trace.
      rewrite provider_calls_cons, provider_calls_app,
        (provider_calls_cons _ []).
      cbn [is_completion]. change (provider_calls []) with 0. lia. }
  destruct (generate_queries_parallel_returns (queries_completion env)
              (t0 :: dts) (completion_order env)) as (t2 & Hreg & Hq2).
  destruct (generate_ambiguous_queries_returns (ambiguous_completion env)
              NUM_AMBIGUOUS_QUERIES) as (t3 & raw_amb & Hamb & Hq3).
  destruct (generate_adversarial_queries_returns (adversarial_completion env)
              NUM_ADVERSARIAL_QUERIES) as (t4 & raw_adv & Hadv & Hq4).
  destruct (main_all_stages env t1 t2 t3 t4 t0 dts _ raw_amb raw_adv
              Hkey Hgen Hreg Hamb Hadv) as [Hvalue Htrace].
  split_and!; [done| |].
  2: { rewrite Hvalue. split; intros Heq; discriminate Heq. }
  intros _. eexists t2, t3, t4, _, raw_amb, raw_adv.
  cbv zeta. split_and!.
  - exact Hreg.
  - exact Hamb.
  - exact Hadv.
  - apply injective_projections; [exact Htrace|exact Hvalue].
  - by apply query_imap.
  - by apply query_imap.
  - apply shuffle_Permutation.
  - intros ->. split; [done|]. by rewrite shuffle_Permutation.
  - intros ->. split; [done|].
    rewrite shuffle_Permutation. cbn. by rewrite app_nil_r.
  - intros Hne. rewrite Htrace. unfold done_trace.
    destruct (shuffle _ _) as [|q qs]; [done|].
    rewrite save_queries_to_csv_nonempty
      by (rewrite parent_output_path; apply file_system_at_save_dir).
    cbn [fst].
    rewrite ?fs_events_cons, ?fs_events_app, ?fs_events_cons, ?fs_events_app,
      ?fs_events_cons, ?fs_events_app, ?fs_events_cons, ?fs_events_app,
      ?fs_events_cons, ?fs_events_app, Hq1, Hq2, Hq3, Hq4.
    reflexivity.
Qed.

(** C8.  Every record of a completed run satisfies the record invariant:
    its query type is "regular", "ambiguous" or "adversarial"; its id is
    the prefix of that type (SYN, AMB, ADV) followed by a sequence number,
    from 1 on, written with at least three digits; it carries a dimension
    tuple exactly when it is regular; its kept flag is 1 and its note is
    empty, the defaults of the class, whatever was generated.  Within each
    category the ids are those of 1, 2, 3, ... in order, and no two
    records of the run share an id. *)
Theorem main_record_invariant (env : Env)
    (regular ambiguous adversarial all_queries : list QueryWithDimensions) :
  (main env).2 =
    Returned (ExitDone regular ambiguous adversarial all_queries) →
  Forall record_invariant (regular ++ ambiguous ++ adversarial) ∧
  Forall record_invariant all_queries ∧
  NoDup (id <$> all_queries) ∧
  id <$> regular = (λ n, "SYN" +:+ fmt_03d n) <$> seq 1 (length regular) ∧
  id <$> ambiguous =
    (λ n, "AMB" +:+ fmt_03d n) <$> seq 1 (length ambiguous) ∧
  id <$> adversarial =
    (λ n, "ADV" +:+ fmt_03d n) <$> seq 1 (length adversarial) ∧
  Forall (λ q, query_type q = "regular") regular ∧
  Forall (λ q, query_type q = "ambiguous") ambiguous ∧
  Forall (λ q, query_type q = "adversarial") adversarial.
Proof.
  intros Hdone.
  destruct (main_done_inv env _ _ _ _ Hdone)
    as (t1 & t2 & t3 & t4 & n & pairs & raw_amb & raw_adv
        & -> & -> & -> & Hall & _).
  assert (all_queries ≡ₚ regular_records 1 pairs ++
            ambiguous_records raw_amb ++ adversarial_records raw_adv)
    as Hperm by (rewrite Hall; apply shuffle_Permutation).
  assert (Forall record_invariant
            (regular_records 1 pairs ++ ambiguous_records raw_amb ++
             adversarial_records raw_adv)) as Hinv.
  { rewrite !Forall_app.
    auto using regular_records_invariant, ambiguous_records_invariant,
      adversarial_records_invariant. }
  split_and!.
  - done.
  - by rewrite Hperm.
  - rewrite Hperm. apply all_ids_NoDup.
  - by rewrite regular_records_ids, length_regular_records.
  - unfold ambiguous_records at 2. by rewrite ambiguous_records_ids, length_imap.
  - unfold adversarial_records at 2.
    by rewrite adversarial_records_ids, length_imap.
  - apply Forall_forall. intros q Hq.
    by apply elem_of_lookup_imap in Hq as (k & p & -> & _).
  - apply Forall_forall. intros q Hq.
    by apply elem_of_lookup_imap in Hq as (k & p & -> & _).
  - apply Forall_forall. intros q Hq.
    by apply elem_of_lookup_imap in Hq as (k & p & -> & _).
Qed.

End pipeline_facts.

(** ** Further properties: the call wrapper and the generators *)

(** Every run of [call_llm] is one of two: a first success, or three
    failures. *)
Lemma call_llm_outcome {A} completion messages
    (response_format : string → exn + A) :
  (∃ k v, k < 3 ∧
     (∀ j, j < k → attempt_fails completion response_format j) ∧
     attempt_result completion response_format k = inr v ∧
     call_llm completion messages response_format =
       (retry_trace messages k, Returned (Some v))) ∨
  (∃ e, never_answers completion response_format ∧
     attempt_result completion response_format 2 = inl e ∧
     call_llm completion messages response_format =
       (retry_trace messages 2, Raised e)).
Proof.
  destruct (attempt_result completion response_format 0) as [e0|v] eqn:H0.
  2: { left. exists 0, v. split_and!; [lia|intros; lia|done|].
       apply call_llm_first_success; [lia|intros; lia|done]. }
  destruct (attempt_result completion response_format 1) as [e1|v] eqn:H1.
  2: { assert (∀ j, j < 1 → attempt_fails completion response_format j).
       { intros j Hj. assert (j = 0) as -> by lia. by exists e0. }
       left. exists 1, v. split_and!; [lia|done|done|].
       apply call_llm_first_success; [lia|done|done]. }
  assert (∀ j, j < 2 → attempt_fails completion response_format j) as Hfail.
  { intros j Hj. assert (j = 0 ∨ j = 1) as [-> | ->] by lia; by eexists. }
  destruct (attempt_result completion response_format 2) as [e2|v] eqn:H2.
  - right. exists e2. split_and!; [|done|by apply call_llm_all_fail].
    intros j Hj. assert (j = 2 ∨ j < 2) as [-> | ?] by lia; [by eexists|].
    by apply Hfail.
  - left. exists 2, v. split_and!; [lia|done|done|].
    apply call_llm_first_success; [lia|done|done].
Qed.

(** X1.  Whatever the provider does, [call_llm] ends in one of two ways:
    it returns a decoded value, or it raises.  It never falls out of its
    loop (it never returns [None]); it calls the provider at least once;
    it sleeps 1 second after every call but the last one, hence never
    after the final attempt; it raises only after three calls, all of them
    failed, and then with the exception of the third; and a value it
    returns is the one decoded at the first attempt that succeeds. *)
Theorem call_llm_never_returns_none {A} (completion : nat → outcome)
    (messages : list message) (response_format : string → exn + A) :
  let run := call_llm completion messages response_format in
  run.2 ≠ Returned None ∧
  1 ≤ provider_calls run.1 ∧
  sleeps run.1 = replicate (provider_calls run.1 - 1) 1 ∧
  (∀ e, run.2 = Raised e →
        provider_calls run.1 = 3 ∧
        never_answers completion response_format ∧
        attempt_result completion response_format 2 = inl e) ∧
  (∀ v, run.2 = Returned (Some v) → answers completion response_format v).
Proof.
  intros run. subst run.
  destruct (call_llm_outcome completion messages response_format)
    as [(k & v & Hk & Hfail & Hok & ->)|(e & Hnever & He & ->)];
    cbn [fst snd];
    rewrite provider_calls_retry_trace, sleeps_retry_trace, Nat.add_sub.
  - split_and!; [done|lia|done|done|].
    intros v' [= <-]. by exists k.
  - split_and!; [done|lia|done| |done].
    by intros e' [= <-].
Qed.

Section generator_outcomes.
Context `{External}.

(** The three generators of query strings share their body. *)
Lemma guarded_call_outcome {R A} completion messages
    (response_format : string → exn + R) (attr : string)
    (field : R → list A) (line : string) :
  let run :=
    try_except
      (response ← call_llm completion messages response_format;
       getattr attr field response)
      (λ e, print (line +:+ str_exn e) ;; mret []) in
  (∀ r, answers completion response_format r →
        ∃ k, k < 3 ∧ run = (retry_trace messages k, Returned (field r))) ∧
  (never_answers completion response_format →
     ∃ e, attempt_result completion response_format 2 = inl e ∧
          run = (retry_trace messages 2 ++ [EPrint (line +:+ str_exn e)],
                 Returned [])).
Proof.
  intros run. subst run. split.
  - intros r (k & Hk & Hfail & Hok). exists k. split; [done|].
    rewrite (call_llm_first_success _ _ _ k r Hk Hfail Hok).
    cbn. by rewrite app_nil_r.
  - intros Hnever. destruct (Hnever 2) as [e He]; [lia|].
    exists e. split; [done|].
    rewrite (call_llm_all_fail _ _ _ e); [done| |done].
    intros j Hj. apply Hnever. lia.
Qed.

(** X2.  [generate_queries_for_tuple] never raises.  When the provider
    answers within the three attempts it returns the decoded queries as
    they are and prints nothing.  When the three attempts fail it prints
    one line, "Error generating queries for tuple: " followed by the
    message of the third exception, and returns the empty list, after
    exactly three calls of the provider. *)
Theorem generate_queries_for_tuple_outcome (completion : nat → outcome)
    (dimension_tuple : DimensionTuple) :
  let messages := [Message "user" (queries_prompt dimension_tuple)] in
  let run := generate_queries_for_tuple completion dimension_tuple in
  (∃ qs, run.2 = Returned qs) ∧
  (∀ ql, answers completion parse_QueriesList ql →
         ∃ k, k < 3 ∧
              run = (retry_trace messages k, Returned (queries ql))) ∧
  (never_answers completion parse_QueriesList →
     ∃ e, attempt_result completion parse_QueriesList 2 = inl e ∧
          run = (retry_trace messages 2 ++
                   [EPrint ("Error generating queries for tuple: " +:+
                            str_exn e)],
                 Returned []) ∧
          provider_calls run.1 = 3).
Proof.
  intros messages run. subst run messages.
  destruct (guarded_call_outcome completion
              [Message "user" (queries_prompt dimension_tuple)]
              parse_QueriesList "queries" queries
              "Error generating queries for tuple: ") as [Hyes Hno].
  split_and!.
  - destruct (generate_queries_for_tuple_returns completion dimension_tuple)
      as (tr & qs & -> & _). by exists qs.
  - exact Hyes.
  - intros Hnever. destruct (Hno Hnever) as (e & He & Hrun).
    exists e. split_and!; [done|exact Hrun|].
    unfold generate_queries_for_tuple. rewrite Hrun. cbn [fst].
    rewrite provider_calls_app, provider_calls_retry_trace. done.
Qed.

(** X3.  [generate_ambiguous_queries] and [generate_adversarial_queries]
    never raise.  When the provider answers, each returns the decoded
    queries as they are: [num] goes into the prompt only, the list is
    neither cut nor filled to [num] entries.  When the three attempts fail,
    each prints its own error line with the message of the third exception
    and returns the empty list. *)
Theorem category_generators_outcome (completion : nat → outcome)
    (num : nat) :
  let ambiguous := generate_ambiguous_queries completion num in
  let adversarial := generate_adversarial_queries completion num in
  (∃ qs, ambiguous.2 = Returned qs) ∧
  (∃ qs, adversarial.2 = Returned qs) ∧
  (∀ ql, answers completion parse_QueriesList ql →
         ambiguous.2 = Returned (queries ql) ∧
         adversarial.2 = Returned (queries ql) ∧
         ∀ num', (generate_ambiguous_queries completion num').2 =
                   ambiguous.2 ∧
                 (generate_adversarial_queries completion num').2 =
                   adversarial.2) ∧
  (never_answers completion parse_QueriesList →
     ∃ e, attempt_result completion parse_QueriesList 2 = inl e ∧
          ambiguous =
            (retry_trace [Message "user" (ambiguous_prompt num)] 2 ++
               [EPrint ("Error generating ambiguous queries: " +:+
                        str_exn e)],
             Returned []) ∧
          adversarial =
            (retry_trace [Message "user" (adversarial_prompt num)] 2 ++
               [EPrint ("Error generating adversarial queries: " +:+
                        str_exn e)],
             Returned [])).
Proof.
  intros ambiguous adversarial. subst ambiguous adversarial.
  assert (∀ n ql, answers completion parse_QueriesList ql →
            (generate_ambiguous_queries completion n).2 =
              Returned (queries ql) ∧
            (generate_adversarial_queries completion n).2 =
              Returned (queries ql)) as Hyes.
  { intros n ql Hql. split.
    - destruct (guarded_call_outcome completion
                  [Message "user" (ambiguous_prompt n)]
                  parse_QueriesList "queries" queries
                  "Error generating ambiguous queries: ") as [Hy _].
      destruct (Hy ql Hql) as (k & _ & Hrun).
      unfold generate_ambiguous_queries. by rewrite Hrun.
    - destruct (guarded_call_outcome completion
                  [Message "user" (adversarial_prompt n)]
                  parse_QueriesList "queries" queries
                  "Error generating adversarial queries: ") as [Hy _].
      destruct (Hy ql Hql) as (k & _ & Hrun).
      unfold generate_adversarial_queries. by rewrite Hrun. }
  split_and!.
  - destruct (generate_ambiguous_queries_returns completion num)
      as (tr & qs & -> & _). by exists qs.
  - destruct (generate_adversarial_queries_returns completion num)
      as (tr & qs & -> & _). by exists qs.
  - intros ql Hql. destruct (Hyes num ql Hql) as [-> ->].
    split_and!; [done..|].
    intros num'. by destruct (Hyes num' ql Hql) as [-> ->].
  - intros Hnever.
    destruct (guarded_call_outcome completion
                [Message "user" (ambiguous_prompt num)]
                parse_QueriesList "queries" queries
                "Error generating ambiguous queries: ") as [_ Hamb].
    destruct (guarded_call_outcome completion
                [Message "user" (adversarial_prompt num)]
                parse_QueriesList "queries" queries
                "Error generating adversarial queries: ") as [_ Hadv].
    destruct (Hamb Hnever) as (e & He & Hrun1).
    destruct (Hadv Hnever) as (e' & He' & Hrun2).
    assert (e' = e) as -> by congruence.
    exists e. by split_and!.
Qed.

(** X4.  [generate_dimension_tuples] never raises.  When the three
    attempts fail it prints "Error generating dimension tuples: " followed
    by the message of the third exception and returns the empty list, after
    exactly three calls of the provider.  An answer that decodes to no
    tuple gives the empty list too, without any message. *)
Theorem generate_dimension_tuples_failure (completion : nat → outcome) :
  let messages := [Message "user" tuples_prompt] in
  let run := generate_dimension_tuples completion in
  (∃ dts, run.2 = Returned dts) ∧
  (never_answers completion parse_DimensionTuplesList →
     ∃ e, attempt_result completion parse_DimensionTuplesList 2 = inl e ∧
          run = (retry_trace messages 2 ++
                   [EPrint ("Error generating dimension tuples: " +:+
                            str_exn e)],
                 Returned []) ∧
          provider_calls run.1 = 3) ∧
  (answers completion parse_DimensionTuplesList {| tuples := [] |} →
     ∃ k, k < 3 ∧ run = (retry_trace messages k, Returned [])).
Proof.
  intros messages run. subst run messages. split_and!.
  - destruct (generate_dimension_tuples_returns completion)
      as (tr & dts & -> & _). by exists dts.
  - intros Hnever. destruct (Hnever 2) as [e He]; [lia|].
    exists e. split; [done|].
    unfold generate_dimension_tuples.
    rewrite (call_llm_all_fail _ _ _ e); [|intros j Hj; apply Hnever; lia|done].
    split; [done|]. cbn [try_except mbind M_bind fst].
    vm_compute. reflexivity.
  - intros (k & Hk & Hfail & Hok). exists k. split; [done|].
    unfold generate_dimension_tuples.
    rewrite (call_llm_first_success _ _ _ k _ Hk Hfail Hok).
    cbn. by rewrite app_nil_r.
Qed.

End generator_outcomes.

(** ** Further properties: deduplication and the fan-out *)

Section dedup_more.
Context `{External}.

Lemma keep_first_occurrences_distinct l :
  NoDup (model_dump_json <$> l) → keep_first_occurrences l = l.
Proof.
  induction l as [|x p IH] using rev_ind; [done|].
  rewrite fmap_app. intros (Hp & Hx & _)%NoDup_app.
  rewrite keep_first_occurrences_snoc, IH by done.
  rewrite decide_True; [done|].
  intros Hin. apply (Hx _ Hin). left.
Qed.

(** X5.  The deduplication of [generate_dimension_tuples] leaves a list
    alone when its serialisations are already distinct, so running it
    twice changes nothing more.  Its result holds no tuple twice, starts
    with the first tuple of the input, and still has, for every tuple of
    the input, a tuple with the same serialisation. *)
Theorem dedup_tuples_idempotent (all_tuples : list DimensionTuple) :
  dedup_tuples (dedup_tuples all_tuples) = dedup_tuples all_tuples ∧
  (NoDup (model_dump_json <$> all_tuples) →
   dedup_tuples all_tuples = all_tuples) ∧
  NoDup (dedup_tuples all_tuples) ∧
  head (dedup_tuples all_tuples) = head all_tuples ∧
  (∀ t, t ∈ all_tuples →
        ∃ u, u ∈ dedup_tuples all_tuples ∧
             model_dump_json u = model_dump_json t).
Proof.
  rewrite !dedup_tuples_keep_first. split_and!.
  - apply keep_first_occurrences_distinct, keep_first_occurrences_NoDup.
  - apply keep_first_occurrences_distinct.
  - eapply NoDup_fmap_1, keep_first_occurrences_NoDup.
  - destruct all_tuples as [|t l]; [done|].
    change (t :: l) with ([t] ++ l).
    induction l as [|x p IH] using rev_ind; [done|].
    rewrite (assoc_L (++)), keep_first_occurrences_snoc.
    destruct (keep_first_occurrences ([t] ++ p)); [done|].
    exact IH.
  - intros t Ht.
    assert (model_dump_json t ∈
              model_dump_json <$> keep_first_occurrences all_tuples) as Hin.
    { apply (elem_of_list_to_set (C:=gset string)).
      rewrite keep_first_occurrences_same_set.
      by apply elem_of_list_to_set, list_elem_of_fmap_2. }
    apply list_elem_of_fmap in Hin as (u & Hu & Hin). by exists u.
Qed.

End dedup_more.

Lemma regular_records_contents n pairs :
  (λ q, (query q, dimension_tuple q, query_type q)) <$>
    regular_records n pairs =
  (λ p, (p.2, Some p.1, "regular")) <$> pairs.
Proof.
  unfold regular_records. rewrite fmap_imap, <- imap_const.
  by apply imap_ext.
Qed.

(** X6.  The order in which the futures complete decides which id a query
    gets, and nothing else: for two orders of completion of the same
    futures, [generate_queries_parallel] returns the same number of
    records, with the same ids at the same positions, and the records
    carry the same queries with the same tuples, up to their order. *)
Theorem fan_out_order_independent
    (task : nat → DimensionTuple → M (list string))
    (dimension_tuples : list DimensionTuple) (order1 order2 : list nat) :
  order1 ≡ₚ order2 →
  ∃ records1 records2,
    (generate_queries_parallel_with task dimension_tuples order1).2 =
      Returned records1 ∧
    (generate_queries_parallel_with task dimension_tuples order2).2 =
      Returned records2 ∧
    length records1 = length records2 ∧
    id <$> records1 = id <$> records2 ∧
    (λ q, (query q, dimension_tuple q, query_type q)) <$> records1 ≡ₚ
    (λ q, (query q, dimension_tuple q, query_type q)) <$> records2.
Proof.
  intros Horder. eexists _, _.
  rewrite !generate_queries_parallel_with_value.
  assert (order1 ≫= future_queries task dimension_tuples ≡ₚ
          order2 ≫= future_queries task dimension_tuples) as Hpairs
    by (by rewrite Horder).
  split_and!; [done|done|..].
  - by rewrite !length_regular_records, Hpairs.
  - by rewrite !regular_records_ids, Hpairs.
  - by rewrite !regular_records_contents, Hpairs.
Qed.

Section fan_out_calls.
Context `{External}.

Lemma generate_queries_for_tuple_calls completion t :
  1 ≤ provider_calls (generate_queries_for_tuple completion t).1 ≤ 3.
Proof.
  unfold generate_queries_for_tuple.
  destruct (call_llm_trace completion [Message "user" (queries_prompt t)]
              parse_QueriesList) as (k & r & Hk & ->).
  destruct r as [[v|]|e]; cbn [try_except mbind M_bind getattr fst snd
                               mret M_ret raise print emit];
    rewrite ?provider_calls_app, provider_calls_retry_trace;
    change (provider_calls [EPrint _]) with 0;
    change (provider_calls []) with 0; lia.
Qed.

Lemma collect_futures_calls task dimension_tuples order all_queries query_id :
  (∀ i t, dimension_tuples !! i = Some t →
          1 ≤ provider_calls (task i t).1 ≤ 3) →
  (∀ i, i ∈ order → i < length dimension_tuples) →
  length order ≤
    provider_calls
      (collect_futures task dimension_tuples order all_queries query_id).1
    ≤ 3 * length order.
Proof.
  intros Htask. revert all_queries query_id.
  induction order as [|i order IH]; intros all_queries query_id Hrange.
  { cbn. change (provider_calls []) with 0. lia. }
  cbn [collect_futures].
  destruct (lookup_lt_is_Some_2 dimension_tuples i) as [t Ht];
    [apply Hrange; left|].
  rewrite Ht. specialize (Htask i t Ht).
  assert (∀ i0, i0 ∈ order → i0 < length dimension_tuples) as Hrange'
    by (intros; apply Hrange; by right).
  destruct (task i t) as [tr [qs|e]]; cbn [fst] in Htask.
  - rewrite bind_Returned.
    destruct qs as [|q qs]; cbn [mret M_ret fst snd];
      rewrite try_except_Returned, bind_Returned; cbn [fst snd length];
      rewrite !provider_calls_app; change (provider_calls []) with 0;
      match goal with
      | |- context [collect_futures _ _ _ ?a ?b] =>
          specialize (IH a b Hrange')
      end; lia.
  - rewrite bind_Raised, try_except_Raised. unfold print, emit.
    rewrite bind_Returned. cbn [fst snd mret M_ret].
    rewrite bind_Returned. cbn [fst snd length].
    rewrite !provider_calls_app.
    change (provider_calls [EPrint _]) with 0.
    change (provider_calls []) with 0.
    specialize (IH all_queries query_id Hrange'). lia.
Qed.

(** X7.  For T tuples, each future collected once, the fan-out calls the
    provider at least T and at most 3T times, whatever the provider
    answers, and touches no file. *)
Theorem generate_queries_parallel_calls (completion : nat → nat → outcome)
    (dimension_tuples : list DimensionTuple) (order : list nat) :
  order ≡ₚ seq 0 (length dimension_tuples) →
  let run := generate_queries_parallel completion dimension_tuples order in
  length dimension_tuples ≤ provider_calls run.1 ∧
  provider_calls run.1 ≤ 3 * length dimension_tuples ∧
  fs_events run.1 = [].
Proof.
  intros Horder run. subst run.
  assert (length order = length dimension_tuples) as Hlen
    by (by rewrite Horder, length_seq).
  destruct (generate_queries_parallel_returns completion dimension_tuples
              order) as (tr & Hrun & Hquiet).
  split_and!; [| |by rewrite Hrun].
  all: unfold generate_queries_parallel, generate_queries_parallel_with;
    unfold print, emit; rewrite bind_Returned; cbn [fst];
    rewrite provider_calls_app; change (provider_calls [EPrint _]) with 0;
    rewrite <- Hlen;
    match goal with
    | |- context [collect_futures ?task ?d ?o ?a ?b] =>
        pose proof (collect_futures_calls task d o a b) as Hcalls
    end;
    destruct Hcalls as [Hlow Hhigh];
    [intros i t _; apply generate_queries_for_tuple_calls
    |intros i Hi; rewrite Horder in Hi; apply elem_of_seq in Hi; lia
    |lia].
Qed.

End fan_out_calls.

(** ** Further properties: paths and the whole run *)

Section path_facts.
Context `{External}.

Lemma file_name_component (base_name timestamp ext : string) :
  contains "/" base_name = false →
  contains "/" timestamp = false →
  contains "/" ext = false →
  let file_name := base_name +:+ "_" +:+ timestamp +:+ "." +:+ ext in
  contains "/" file_name = false ∧ file_name ≠ "" ∧ file_name ≠ ".".
Proof.
  intros Hb Ht He file_name.
  assert (2 ≤ String.length file_name) as Hlen.
  { unfold file_name. rewrite !string_length_app. cbn. lia. }
  split_and!.
  - unfold file_name. by rewrite !contains_app, Hb, Ht, He.
  - intros Heq. rewrite Heq in Hlen. cbn in Hlen. lia.
  - intros Heq. rewrite Heq in Hlen. cbn in Hlen. lia.
Qed.

(** X8.  For a base name and an extension without a slash,
    [get_output_csv_path] creates the directory it was given (the
    directory of the script when it was given none) and nothing else, and
    returns the path of the file [<base_name>_<timestamp>.<ext>] in that
    directory.  For one base name, directory and extension it gives
    different paths at different timestamps: two runs overwrite each
    other's file only when they read the same timestamp. *)
Theorem get_output_csv_path_distinct (now1 now2 : datetime)
    (base_name : string) (dir_path : option PathLike) (ext : string) :
  contains "/" base_name = false →
  contains "/" ext = false →
  strftime now1 ≠ strftime now2 →
  ∃ path1 path2,
    get_output_csv_path now1 base_name dir_path ext =
      ([EMkdir (parent path1)], Returned path1) ∧
    get_output_csv_path now2 base_name dir_path ext =
      ([EMkdir (parent path2)], Returned path2) ∧
    parent path1 = default script_dir (Path_of <$> dir_path) ∧
    parent path2 = parent path1 ∧
    name path1 = base_name +:+ "_" +:+ strftime now1 +:+ "." +:+ ext ∧
    name path2 = base_name +:+ "_" +:+ strftime now2 +:+ "." +:+ ext ∧
    name path1 ≠ name path2 ∧
    str_path path1 ≠ str_path path2.
Proof.
  intros Hb He Hne.
  destruct (file_name_component base_name (strftime now1) ext Hb
              (contains_slash_strftime now1) He) as (Hs1 & Hne1 & Hdot1).
  destruct (file_name_component base_name (strftime now2) ext Hb
              (contains_slash_strftime now2) He) as (Hs2 & Hne2 & Hdot2).
  assert (base_name +:+ "_" +:+ strftime now1 +:+ "." +:+ ext ≠
          base_name +:+ "_" +:+ strftime now2 +:+ "." +:+ ext) as Hnames.
  { intros Heq.
    apply (inj (String.app base_name)), (inj (String.app "_")) in Heq.
    by apply string_app_inj_r in Heq. }
  set (d := default script_dir (Path_of <$> dir_path)).
  assert (∀ now,
            get_output_csv_path now base_name dir_path ext =
            (emit (EMkdir
                     (parent (joinpath d (base_name +:+ "_" +:+
                                strftime now +:+ "." +:+ ext)))) ;;
             mret (joinpath d (base_name +:+ "_" +:+
                     strftime now +:+ "." +:+ ext)))) as Hrun
    by (intros now; by destruct dir_path).
  rewrite !Hrun. rewrite !joinpath_component by done.
  eexists _, _. split_and!; [reflexivity|reflexivity|..].
  - apply parent_snoc.
  - by rewrite !parent_snoc.
  - apply name_snoc.
  - apply name_snoc.
  - by rewrite !name_snoc.
  - destruct (str_path_snoc d _ Hne1) as (prefix & -> & Hprefix).
    rewrite (Hprefix _ Hne2). intros Heq.
    by apply (inj (String.app prefix)) in Heq.
Qed.

End path_facts.

Section run_facts.
Context `{External}.

Lemma guarded_call_calls {R A} completion messages
    (response_format : string → exn + R) (attr : string)
    (field : R → list A) (line : string) :
  provider_calls
    (try_except
       (response ← call_llm completion messages response_format;
        getattr attr field response)
       (λ e, print (line +:+ str_exn e) ;; mret [])).1 ≤ 3.
Proof.
  destruct (call_llm_trace completion messages response_format)
    as (k & r & Hk & ->).
  destruct r as [[v|]|e]; cbn [try_except mbind M_bind getattr fst snd
                               mret M_ret raise print emit];
    rewrite ?provider_calls_app, provider_calls_retry_trace;
    change (provider_calls [EPrint _]) with 0;
    change (provider_calls []) with 0; lia.
Qed.

Lemma generate_dimension_tuples_calls completion :
  provider_calls (generate_dimension_tuples completion).1 ≤ 3.
Proof.
  unfold generate_dimension_tuples.
  destruct (call_llm_trace completion [Message "user" tuples_prompt]
              parse_DimensionTuplesList) as (k & r & Hk & ->).
  destruct r as [[v|]|e]; cbn [try_except mbind M_bind getattr fst snd
                               mret M_ret raise print emit];
    rewrite ?provider_calls_app, provider_calls_retry_trace;
    change (provider_calls [EPrint _]) with 0;
    change (provider_calls []) with 0; lia.
Qed.

Lemma collect_futures_calls_le task dimension_tuples order
    all_queries query_id :
  (∀ i t, provider_calls (task i t).1 ≤ 3) →
  provider_calls
    (collect_futures task dimension_tuples order all_queries query_id).1
  ≤ 3 * length order.
Proof.
  intros Htask. revert all_queries query_id.
  induction order as [|i order IH]; intros all_queries query_id.
  { cbn. change (provider_calls []) with 0. lia. }
  cbn [collect_futures].
  destruct (dimension_tuples !! i) as [t|].
  2: { specialize (IH all_queries query_id). cbn [length]. lia. }
  specialize (Htask i t).
  destruct (task i t) as [tr [qs|e]]; cbn [fst] in Htask.
  - rewrite bind_Returned.
    destruct qs as [|q qs]; cbn [mret M_ret fst snd];
      rewrite try_except_Returned, bind_Returned; cbn [fst snd length];
      rewrite !provider_calls_app; change (provider_calls []) with 0;
      match goal with
      | |- context [collect_futures _ _ _ ?a ?b] => specialize (IH a b)
      end; lia.
  - rewrite bind_Raised, try_except_Raised. unfold print, emit.
    rewrite bind_Returned. cbn [fst snd mret M_ret].
    rewrite bind_Returned. cbn [fst snd length].
    rewrite !provider_calls_app.
    change (provider_calls [EPrint _]) with 0.
    change (provider_calls []) with 0.
    specialize (IH all_queries query_id). lia.
Qed.

Lemma generate_queries_parallel_calls_le completion dimension_tuples order :
  provider_calls
    (generate_queries_parallel completion dimension_tuples order).1
  ≤ 3 * length order.
Proof.
  unfold generate_queries_parallel, generate_queries_parallel_with.
  unfold print, emit. rewrite bind_Returned. cbn [fst].
  rewrite provider_calls_app. change (provider_calls [EPrint _]) with 0.
  cbn [Nat.add]. apply collect_futures_calls_le.
  intros i t. apply guarded_call_calls.
Qed.

Lemma save_queries_to_csv_calls fs queries path :
  provider_calls (save_queries_to_csv fs queries path).1 = 0.
Proof.
  destruct queries; [done|]. unfold save_queries_to_csv.
  by destruct (is_dir _ _).
Qed.

(** X9.  Without the API key [main] prints its error and returns: it
    never calls the provider and does nothing to the file system.  With
    the key, one run calls the provider at most 9 times outside the
    fan-out (three attempts for the tuples, for the ambiguous and for the
    adversarial queries) and at most 3 times per collected future. *)
Theorem main_provider_calls (env : Env) :
  provider_calls (main env).1 ≤ 9 + 3 * length (completion_order env) ∧
  (has_api_key env = false →
     main env =
       ([EPrint "Error: OPENAI_API_KEY environment variable not set."],
        Returned ExitNoApiKey) ∧
     provider_calls (main env).1 = 0 ∧
     fs_events (main env).1 = []).
Proof.
  split.
  2: { intros Hkey. by rewrite main_no_api_key. }
  destruct (has_api_key env) eqn:Hkey.
  2: { rewrite main_no_api_key by done. cbn [fst].
       change (provider_calls [EPrint _]) with 0. lia. }
  pose proof (generate_dimension_tuples_calls (tuples_completion env)) as Hc1.
  destruct (generate_dimension_tuples (tuples_completion env))
    as [t1 [dts|e]] eqn:Hgen.
  2: { destruct (generate_dimension_tuples_returns (tuples_completion env))
         as (? & ? & Heq & _). congruence. }
  cbn [fst] in Hc1. destruct dts as [|t0 dts].
  { rewrite (main_no_tuples env t1) by done. cbn [fst].
    unfold no_tuples_trace.
    rewrite provider_calls_cons, provider_calls_app. cbn [is_completion].
    change (provider_calls [EPrint _]) with 0. lia. }
  pose proof (generate_queries_parallel_calls_le (queries_completion env)
                (t0 :: dts) (completion_order env)) as Hc2.
  destruct (generate_queries_parallel_returns (queries_completion env)
              (t0 :: dts) (completion_order env)) as (t2 & Hreg & _).
  rewrite Hreg in Hc2. cbn [fst] in Hc2.
  pose proof (guarded_call_calls (ambiguous_completion env)
                [Message "user" (ambiguous_prompt NUM_AMBIGUOUS_QUERIES)]
                parse_QueriesList "queries" queries
                "Error generating ambiguous queries: ") as Hc3.
  destruct (generate_ambiguous_queries_returns (ambiguous_completion env)
              NUM_AMBIGUOUS_QUERIES) as (t3 & raw_amb & Hamb & _).
  change (try_except _ _) with
    (generate_ambiguous_queries (ambiguous_completion env)
       NUM_AMBIGUOUS_QUERIES) in Hc3.
  rewrite Hamb in Hc3. cbn [fst] in Hc3.
  pose proof (guarded_call_calls (adversarial_completion env)
                [Message "user" (adversarial_prompt NUM_ADVERSARIAL_QUERIES)]
                parse_QueriesList "queries" queries
                "Error generating adversarial queries: ") as Hc4.
  destruct (generate_adversarial_queries_returns (adversarial_completion env)
              NUM_ADVERSARIAL_QUERIES) as (t4 & raw_adv & Hadv & _).
  change (try_except _ _) with
    (generate_adversarial_queries (adversarial_completion env)
       NUM_ADVERSARIAL_QUERIES) in Hc4.
  rewrite Hadv in Hc4. cbn [fst] in Hc4.
  destruct (main_all_stages env t1 t2 t3 t4 t0 dts _ raw_amb raw_adv
              Hkey Hgen Hreg Hamb Hadv) as [_ Htrace].
  rewrite Htrace. unfold done_trace.
  repeat first [rewrite provider_calls_cons | rewrite provider_calls_app].
  rewrite save_queries_to_csv_calls.
  cbn [is_completion]. change (provider_calls []) with 0. lia.
Qed.

(** X10.  A run in which every query generator comes back empty still
    runs to the end: [main] creates the output directory, writes no file,
    prints "No queries to save." and then reports success with a total of
    zero records. *)
Theorem main_no_records (env : Env)
    (regular ambiguous adversarial : list QueryWithDimensions) :
  (main env).2 = Returned (ExitDone regular ambiguous adversarial []) →
  regular = [] ∧ ambiguous = [] ∧ adversarial = [] ∧
  fs_events (main env).1 = [EMkdir script_dir] ∧
  ∃ before,
    (main env).1 =
      before ++
      [EMkdir script_dir;
       EPrint "No queries to save.";
       EPrint (newline +:+ "Query generation completed successfully in " +:+
               elapsed_time env +:+ " seconds.");
       EPrint ("Generated " +:+ str_nat 0 +:+ " queries (" +:+
               str_nat 0 +:+ " regular, " +:+
               str_nat 0 +:+ " ambiguous, " +:+
               str_nat 0 +:+ " adversarial).")].
Proof.
  intros Hdone.
  destruct (main_done_inv env _ _ _ _ Hdone)
    as (t1 & t2 & t3 & t4 & n & pairs & raw_amb & raw_adv
        & Hr & Ha & Hd & Hall & Hq1 & Hq2 & Hq3 & Hq4 & Htrace).
  assert (regular ++ ambiguous ++ adversarial = []) as Hnil.
  { apply Permutation_nil_r.
    rewrite <- (shuffle_Permutation (randbelow env)). by rewrite <- Hall. }
  apply app_nil in Hnil as [-> [-> ->]%app_nil].
  split_and!; [done..| |].
  - rewrite Htrace. unfold done_trace.
    rewrite ?fs_events_cons, ?fs_events_app, ?fs_events_cons, ?fs_events_app,
      ?fs_events_cons, ?fs_events_app, ?fs_events_cons, ?fs_events_app,
      ?fs_events_cons, ?fs_events_app, Hq1, Hq2, Hq3, Hq4.
    reflexivity.
  - rewrite Htrace. unfold done_trace.
    eexists (_ :: t1 ++ _ :: _ :: t2 ++ _ :: t3 ++ _ :: t4).
    cbn [app save_queries_to_csv print emit fst length].
    rewrite <- !(assoc_L (++)). cbn [app].
    repeat (f_equal; try (rewrite <- !(assoc_L (++)); cbn [app])).
Qed.

Lemma constant_fmap {A B} (f : A → B) (c : B) (l : list A) :
  Forall (λ x, f x = c) l → f <$> l = replicate (length l) c.
Proof.
  induction 1 as [|x l Hx _ IH]; [done|]. cbn. by rewrite Hx, IH.
Qed.

(** X11.  When a run of [main] has records to save, it writes exactly one
    file, named [synthetic_queries_for_analysis_<timestamp>.csv] and in
    the directory of the script, after creating the directory.  The file has one row per generated
    record: as many rows tagged "regular", "ambiguous" and "adversarial"
    as there are records of each category; no two rows share an id; the
    dimension-tuple column is filled on the regular rows and on no other;
    every row has kept flag 1 and an empty note. *)
Theorem main_file_rows (env : Env)
    (regular ambiguous adversarial all_queries : list QueryWithDimensions) :
  (main env).2 =
    Returned (ExitDone regular ambiguous adversarial all_queries) →
  all_queries ≠ [] →
  ∃ rows,
    fs_events (main env).1 =
      [EMkdir script_dir; EToCsv (output_path env) rows] ∧
    parent (output_path env) = script_dir ∧
    name (output_path env) =
      "synthetic_queries_for_analysis" +:+ "_" +:+
      strftime (now env) +:+ "." +:+ "csv" ∧
    length rows =
      length regular + length ambiguous + length adversarial ∧
    col_query_type <$> rows ≡ₚ
      replicate (length regular) "regular" ++
      replicate (length ambiguous) "ambiguous" ++
      replicate (length adversarial) "adversarial" ∧
    NoDup (col_id <$> rows) ∧
    Forall (λ row,
              (is_Some (col_dimension_tuple_json row) ↔
               col_query_type row = "regular") ∧
              col_is_realistic_and_kept row = 1%Z ∧
              col_notes_for_filtering row = "")
           rows.
Proof.
  intros Hdone Hne.
  destruct (main_done_inv env _ _ _ _ Hdone)
    as (t1 & t2 & t3 & t4 & n & pairs & raw_amb & raw_adv
        & Hr & Ha & Hd & Hall & Hq1 & Hq2 & Hq3 & Hq4 & Htrace).
  assert (all_queries ≡ₚ regular ++ ambiguous ++ adversarial) as Hperm
    by (rewrite Hall at 1; apply shuffle_Permutation).
  assert (Forall record_invariant (regular ++ ambiguous ++ adversarial))
    as Hinv.
  { subst regular ambiguous adversarial. rewrite !Forall_app.
    auto using regular_records_invariant, ambiguous_records_invariant,
      adversarial_records_invariant. }
  exists (to_row <$> all_queries). split_and!.
  - rewrite Htrace. unfold done_trace.
    destruct all_queries as [|q qs]; [done|].
    rewrite save_queries_to_csv_nonempty
      by (rewrite parent_output_path; apply file_system_at_save_dir).
    cbn [fst].
    rewrite ?fs_events_cons, ?fs_events_app, ?fs_events_cons, ?fs_events_app,
      ?fs_events_cons, ?fs_events_app, ?fs_events_cons, ?fs_events_app,
      ?fs_events_cons, ?fs_events_app, Hq1, Hq2, Hq3, Hq4.
    reflexivity.
  - apply parent_output_path.
  - apply name_output_path.
  - rewrite length_fmap, Hperm, !length_app. lia.
  - rewrite <- list_fmap_compose.
    change (col_query_type ∘ to_row) with query_type.
    rewrite Hperm, !fmap_app.
    assert (query_type <$> regular = replicate (length regular) "regular")
      as ->.
    { apply constant_fmap. subst regular. apply Forall_forall. intros q Hq.
      by apply elem_of_lookup_imap in Hq as (k & p & -> & _). }
    assert (query_type <$> ambiguous =
            replicate (length ambiguous) "ambiguous") as ->.
    { apply constant_fmap. subst ambiguous. apply Forall_forall. intros q Hq.
      by apply elem_of_lookup_imap in Hq as (k & p & -> & _). }
    assert (query_type <$> adversarial =
            replicate (length adversarial) "adversarial") as ->.
    { apply constant_fmap. subst adversarial. apply Forall_forall.
      intros q Hq.
      by apply elem_of_lookup_imap in Hq as (k & p & -> & _). }
    done.
  - rewrite <- list_fmap_compose. change (col_id ∘ to_row) with id.
    rewrite Hperm. subst regular ambiguous adversarial.
    apply all_ids_NoDup.
  - apply Forall_fmap. rewrite Hperm.
    eapply Forall_impl; [exact Hinv|].
    intros q (_ & _ & Htuple & Hkept & Hnote). cbn.
    split_and!; [|done..].
    rewrite <- Htuple. by destruct (dimension_tuple q).
Qed.

End run_facts.

(** ** Further properties: what a run prints and in which order *)

Lemma retry_trace_Forall (P : Event → Prop) messages k :
  P (ECompletion MODEL_NAME messages) → P (ESleep 1) →
  Forall P (retry_trace messages k).
Proof.
  intros Hc Hs. unfold retry_trace. apply Forall_app. split; [|by repeat constructor].
  induction k as [|k IH]; [constructor|].
  cbn. by repeat constructor.
Qed.

Lemma collect_futures_Forall (P : Event → Prop) task dimension_tuples order
    all_queries query_id :
  (∀ i t, dimension_tuples !! i = Some t →
          ∃ tr qs, task i t = (tr, Returned qs) ∧ Forall P tr) →
  Forall P
    (collect_futures task dimension_tuples order all_queries query_id).1.
Proof.
  intros Htask. revert all_queries query_id.
  induction order as [|i order IH]; intros all_queries query_id;
    [constructor|].
  cbn [collect_futures].
  destruct (dimension_tuples !! i) as [t|] eqn:Hi; [|apply IH].
  destruct (Htask i t Hi) as (tr & qs & -> & Htr).
  rewrite bind_Returned.
  destruct qs as [|q qs]; cbn [mret M_ret fst snd];
    rewrite try_except_Returned, bind_Returned; cbn [fst snd];
    rewrite !Forall_app; split_and!; auto.
Qed.

Section output_facts.
Context `{External}.

(** X14.  The events of the fan-out are of four kinds only: the heading
    line; calls of the provider, each for the model [MODEL_NAME] with one
    user message holding the prompt of one of the tuples; sleeps of 1
    second; and the tasks' own lines "Error generating queries for
    tuple: ...".  The line of the collecting loop, "Tuple i generated an
    exception", is never printed: a task catches what its call raises, so
    no future ever hands an exception to the loop. *)
Theorem generate_queries_parallel_events (completion : nat → nat → outcome)
    (dimension_tuples : list DimensionTuple) (order : list nat) :
  Forall
    (λ ev,
       match ev with
       | EPrint line =>
           line =
             "Generating " +:+ str_nat NUM_QUERIES_PER_TUPLE +:+
             " queries each for " +:+
             str_nat (length dimension_tuples) +:+ " dimension tuples..." ∨
           ∃ e, line = "Error generating queries for tuple: " +:+ str_exn e
       | ECompletion model messages =>
           model = MODEL_NAME ∧
           ∃ t, t ∈ dimension_tuples ∧
                messages = [Message "user" (queries_prompt t)]
       | ESleep seconds => seconds = 1
       | EMkdir _ | EToCsv _ _ => False
       end)
    (generate_queries_parallel completion dimension_tuples order).1.
Proof.
  unfold generate_queries_parallel, generate_queries_parallel_with.
  unfold print, emit. rewrite bind_Returned. cbn [fst].
  apply Forall_app. split; [constructor; [by left|constructor]|].
  apply collect_futures_Forall. intros i t Hi.
  assert (t ∈ dimension_tuples) as Hin by (by eapply list_elem_of_lookup_2).
  unfold generate_queries_for_tuple.
  destruct (call_llm_outcome (completion i)
              [Message "user" (queries_prompt t)] parse_QueriesList)
    as [(k & v & _ & _ & _ & ->)|(e & _ & _ & ->)].
  - eexists _, _. split; [reflexivity|]. cbn [fst]. rewrite app_nil_r.
    apply retry_trace_Forall; [|done]. split; [done|by exists t].
  - eexists _, _. split; [reflexivity|]. cbn [fst].
    apply Forall_app. split.
    + apply retry_trace_Forall; [|done]. split; [done|by exists t].
    + constructor; [right; by exists e|constructor].
Qed.

(** X15.  With the API key and at least one tuple, [main] runs its stages
    strictly one after the other, and its trace is nothing but, in this
    order: the line of step 1 and the trace of the tuple stage; the count
    of tuples; the line of step 2 and the trace of the fan-out; the line
    of step 3 and the trace of the ambiguous generator; the line of step 4
    and the trace of the adversarial generator; the creation of the output
    directory; the trace of [save_queries_to_csv] on the shuffled records;
    and the two summary lines, which report the numbers of records that
    were made. *)
Theorem main_stages_in_order (env : Env) (t1 : list Event)
    (dimension_tuples : list DimensionTuple) :
  has_api_key env = true →
  generate_dimension_tuples (tuples_completion env) =
    (t1, Returned dimension_tuples) →
  dimension_tuples ≠ [] →
  ∃ t2 t3 t4 regular raw_amb raw_adv,
    generate_queries_parallel (queries_completion env) dimension_tuples
      (completion_order env) = (t2, Returned regular) ∧
    generate_ambiguous_queries (ambiguous_completion env)
      NUM_AMBIGUOUS_QUERIES = (t3, Returned raw_amb) ∧
    generate_adversarial_queries (adversarial_completion env)
      NUM_ADVERSARIAL_QUERIES = (t4, Returned raw_adv) ∧
    let ambiguous := ambiguous_records raw_amb in
    let adversarial := adversarial_records raw_adv in
    let all_queries :=
      shuffle (randbelow env) (regular ++ ambiguous ++ adversarial) in
    main env =
      (done_trace env t1 t2 t3 t4 (length dimension_tuples)
         regular ambiguous adversarial all_queries,
       Returned (ExitDone regular ambiguous adversarial all_queries)) ∧
    length all_queries =
      length regular + length raw_amb + length raw_adv.
Proof.
  intros Hkey Hgen Hne.
  destruct dimension_tuples as [|t0 dts]; [done|].
  destruct (generate_queries_parallel_returns (queries_completion env)
              (t0 :: dts) (completion_order env)) as (t2 & Hreg & _).
  destruct (generate_ambiguous_queries_returns (ambiguous_completion env)
              NUM_AMBIGUOUS_QUERIES) as (t3 & raw_amb & Hamb & _).
  destruct (generate_adversarial_queries_returns (adversarial_completion env)
              NUM_ADVERSARIAL_QUERIES) as (t4 & raw_adv & Hadv & _).
  eexists t2, t3, t4, _, raw_amb, raw_adv.
  split_and!; [exact Hreg|exact Hamb|exact Hadv|].
  intros ambiguous adversarial all_queries.
  destruct (main_all_stages env t1 t2 t3 t4 t0 dts _ raw_amb raw_adv
              Hkey Hgen Hreg Hamb Hadv) as [Hvalue Htrace].
  split.
  - apply injective_projections; [exact Htrace|exact Hvalue].
  - subst all_queries ambiguous adversarial.
    rewrite shuffle_Permutation, !length_app.
    unfold ambiguous_records, adversarial_records.
    rewrite !length_imap. lia.
Qed.

End output_facts.

(** ** The statements above, on mocked runs *)

Import Mock.

(** The mocked provider failing twice then answering, and the mocked
    provider failing on every attempt. *)
Lemma call_llm_retries_witness :
  let messages := [Message "user" "two queries, please"] in
  call_llm (Mock.fails_then 2 "q1;q2") messages parse_QueriesList =
    (retry_trace messages 2, Returned (Some {| queries := ["q1"; "q2"] |}))
  ∧ provider_calls
      (call_llm (Mock.fails_then 2 "q1;q2") messages parse_QueriesList).1
    = 3
  ∧ call_llm Mock.always_fails messages parse_QueriesList =
    (retry_trace messages 2, Raised (Exception "timeout 2")).
Proof.
  intros messages.
  destruct (call_llm_retries (Mock.fails_then 2 "q1;q2") messages
              parse_QueriesList) as (_ & Hsuccess & _).
  destruct (call_llm_retries Mock.always_fails messages
              parse_QueriesList) as (_ & _ & Hfailure).
  destruct (Hsuccess 2 {| queries := ["q1"; "q2"] |}) as (Hrun & Hcalls & _).
  { lia. }
  { intros j Hj. assert (j = 0 ∨ j = 1) as [-> | ->] by lia;
      eexists; reflexivity. }
  { reflexivity. }
  destruct (Hfailure (Exception "timeout 2")) as (Hraise & _ & _).
  { intros j Hj. assert (j = 0 ∨ j = 1) as [-> | ->] by lia;
      eexists; reflexivity. }
  { reflexivity. }
  split_and!; assumption.
Defined.

Lemma generate_dimension_tuples_dedup_witness :
  let response :=
    {| tuples := Mock.tuple_of <$> ["vegan"; "keto"; "vegan"] |} in
  let completion := Mock.fails_then 1 "vegan;keto;vegan" in
  ∃ unique_tuples,
    (generate_dimension_tuples completion).2 = Returned unique_tuples ∧
    unique_tuples = keep_first_occurrences (tuples response) ∧
    unique_tuples `sublist_of` tuples response ∧
    NoDup (model_dump_json <$> unique_tuples) ∧
    length unique_tuples =
      size (list_to_set (model_dump_json <$> tuples response)
              : gset string).
Proof.
  intros response completion.
  apply (generate_dimension_tuples_dedup completion 1 response).
  - lia.
  - intros j Hj. assert (j = 0) as -> by lia. eexists; reflexivity.
  - reflexivity.
Defined.

(** Two tuples, three queries for each, the second future first. *)
Lemma generate_queries_parallel_count_witness :
  let completion := queries_completion Mock.env in
  let dimension_tuples := tuple_of <$> ["vegan"; "keto"] in
  ∃ records,
    (generate_queries_parallel completion dimension_tuples [1; 0]).2 =
      Returned records ∧
    length records = length dimension_tuples * 3 ∧
    Forall (λ q,
              query_type q = "regular" ∧
              ∃ i t ql,
                dimension_tuples !! i = Some t ∧
                answers (completion i) parse_QueriesList ql ∧
                query q ∈ queries ql ∧
                dimension_tuple q = Some t)
           records ∧
    id <$> records =
      (λ n, "SYN" +:+ fmt_03d n) <$> seq 1 (length dimension_tuples * 3).
Proof.
  intros completion dimension_tuples.
  apply (generate_queries_parallel_count completion dimension_tuples [1; 0] 3).
  - apply perm_swap.
  - intros i t Hi. destruct i as [|[|i]]; [| |discriminate Hi].
    + exists {| queries := ["a1"; "a2"; "a3"] |}. split; [|reflexivity].
      exists 1. split_and!; [lia| |reflexivity].
      intros j Hj. assert (j = 0) as -> by lia. eexists; reflexivity.
    + exists {| queries := ["b1"; "b2"; "b3"] |}. split; [|reflexivity].
      exists 0. split_and!; [lia| |reflexivity].
      intros j Hj. lia.
Defined.

(** Two tuples; the provider never answers for the first one. *)
Lemma fan_out_isolates_failures_witness :
  let completion := λ i : nat,
    if decide (i = 0) then always_fails else fails_then 0 "b1;b2;b3" in
  let task := λ i t, generate_queries_for_tuple (completion i) t in
  let dimension_tuples := tuple_of <$> ["vegan"; "keto"] in
  (∃ records,
     (generate_queries_parallel_with task dimension_tuples [1; 0]).2 =
       Returned records ∧
     (generate_queries_parallel_with task dimension_tuples
        (filter (λ i, i ≠ 0) [1; 0])).2 = Returned records) ∧
  (∃ records,
     (generate_queries_parallel completion
        [tuple_of "vegan"; tuple_of "keto"] [1; 0]).2 = Returned records ∧
     records =
       regular_records 1 ((λ q, (tuple_of "keto", q)) <$> ["b1"; "b2"; "b3"]) ∧
     length records = 3).
Proof.
  intros completion task dimension_tuples.
  destruct fan_out_isolates_failures as [Hgeneral Htwo].
  split.
  - apply (Hgeneral task dimension_tuples [1; 0] 0).
    intros t _. right. reflexivity.
  - apply (Htwo completion (tuple_of "vegan") (tuple_of "keto")
             (tuple_of "keto") [1; 0] 0 1
             {| queries := ["b1"; "b2"; "b3"] |}).
    + apply perm_swap.
    + lia.
    + lia.
    + reflexivity.
    + intros j Hj. eexists; reflexivity.
    + exists 0. split_and!; [lia| |reflexivity]. intros j Hj. lia.
Defined.



(** The mocked run: 2 tuples, 3 queries for each, 4 ambiguous and 2
    adversarial queries make 12 records. *)
Lemma main_persists_permutation_witness :
  ∃ regular ambiguous adversarial all_queries,
    (main Mock.env).2 =
      Returned (ExitDone regular ambiguous adversarial all_queries) ∧
    length regular = 6 ∧ length ambiguous = 4 ∧ length adversarial = 2 ∧
    length all_queries = 12 ∧
    all_queries ≡ₚ regular ++ ambiguous ++ adversarial.
Proof.
  eexists _, _, _, _. split; [vm_compute; reflexivity|].
  split_and!; [reflexivity..|].
  refine (proj1 (main_persists_permutation Mock.env _ _ _ _ _)).
  vm_compute; reflexivity.
Defined.

(** A run without tuples stops; a run whose ambiguous generator never
    answers goes on and saves the six regular and the two adversarial
    records. *)
Lemma main_sole_fatal_condition_witness :
  ((main Mock.env_no_tuples).2 = Returned ExitNoTuples ∧
   fs_events (main Mock.env_no_tuples).1 = [] ∧
   provider_calls (main Mock.env_no_tuples).1 = 3) ∧
  ∃ t1 t2 t3 t4 regular adversarial all_queries,
    main Mock.env_no_ambiguous =
      (done_trace Mock.env_no_ambiguous t1 t2 t3 t4 2
         regular [] adversarial all_queries,
       Returned (ExitDone regular [] adversarial all_queries)) ∧
    id <$> regular =
      ["SYN001"; "SYN002"; "SYN003"; "SYN004"; "SYN005"; "SYN006"] ∧
    query <$> regular = ["b1"; "b2"; "b3"; "a1"; "a2"; "a3"] ∧
    id <$> adversarial = ["ADV001"; "ADV002"] ∧
    query <$> adversarial = ["x1"; "x2"] ∧
    all_queries ≡ₚ regular ++ adversarial ∧
    fs_events (main Mock.env_no_ambiguous).1 =
      [EMkdir script_dir;
       EToCsv (output_path Mock.env_no_ambiguous) (to_row <$> all_queries)].
Proof.
  destruct (main_sole_fatal_condition Mock.env_no_tuples eq_refl)
    as (t1 & dts & Hgen & Hempty & _ & _).
  destruct (main_sole_fatal_condition Mock.env_no_ambiguous eq_refl)
    as (t1' & dts' & Hgen' & _ & Hdone & _).
  vm_compute in Hgen. injection Hgen as <- <-.
  split.
  - destruct (Hempty eq_refl) as (Hrun & Hfs & Hcalls).
    split_and!; [by rewrite Hrun|done|by rewrite Hcalls].
  - assert (dts' = tuple_of <$> ["vegan"; "keto"]) as ->.
    { vm_compute in Hgen'. by injection Hgen' as _ <-. }
    destruct Hdone
      as (t2 & t3 & t4 & regular & raw_amb & raw_adv
          & Hreg & Hamb & Hadv & Hrun & _ & _ & _ & Hnone & _ & Hfile);
      [done|].
    assert (raw_amb = []) as ->.
    { vm_compute in Hamb. by injection Hamb as _ <-. }
    assert (raw_adv = ["x1"; "x2"]) as ->.
    { vm_compute in Hadv. by injection Hadv as _ <-. }
    assert (regular =
            regular_records 1
              ((λ q, (tuple_of "keto", q)) <$> ["b1"; "b2"; "b3"]) ++
            regular_records 4
              ((λ q, (tuple_of "vegan", q)) <$> ["a1"; "a2"; "a3"]))
      as ->.
    { vm_compute in Hreg. by injection Hreg as _ <-. }
    destruct (Hnone eq_refl) as [_ Hperm].
    eexists t1', t2, t3, t4, _, _, _.
    split_and!; [exact Hrun|reflexivity..|exact Hperm|].
    apply Hfile. discriminate.
Defined.

Lemma main_record_invariant_witness :
  ∃ regular ambiguous adversarial all_queries,
    (main Mock.env).2 =
      Returned (ExitDone regular ambiguous adversarial all_queries) ∧
    id <$> regular =
      ["SYN001"; "SYN002"; "SYN003"; "SYN004"; "SYN005"; "SYN006"] ∧
    id <$> ambiguous = ["AMB001"; "AMB002"; "AMB003"; "AMB004"] ∧
    id <$> adversarial = ["ADV001"; "ADV002"] ∧
    Forall record_invariant all_queries ∧
    NoDup (id <$> all_queries).
Proof.
  eexists _, _, _, _. split; [vm_compute; reflexivity|].
  split_and!; [reflexivity..| |].
  - refine (proj1 (proj2 (main_record_invariant Mock.env _ _ _ _ _))).
    vm_compute; reflexivity.
  - refine (proj1 (proj2 (proj2 (main_record_invariant Mock.env _ _ _ _ _)))).
    vm_compute; reflexivity.
Defined.

(** *** The further properties, on mocked runs *)

Lemma call_llm_never_returns_none_witness :
  let messages := [Message "user" "two queries, please"] in
  provider_calls (call_llm always_fails messages parse_QueriesList).1 = 3 ∧
  answers (fails_then 1 "q1;q2") parse_QueriesList
    {| queries := ["q1"; "q2"] |}.
Proof.
  intros messages.
  destruct (call_llm_never_returns_none always_fails messages
              parse_QueriesList) as (_ & _ & _ & Hraise & _).
  destruct (call_llm_never_returns_none (fails_then 1 "q1;q2") messages
              parse_QueriesList) as (_ & _ & _ & _ & Hreturn).
  split.
  - by destruct (Hraise (Exception "timeout 2") eq_refl) as (Hcalls & _).
  - apply Hreturn. reflexivity.
Defined.

Lemma generate_queries_for_tuple_outcome_witness :
  (∃ e, attempt_result always_fails parse_QueriesList 2 = inl e ∧
        generate_queries_for_tuple always_fails (tuple_of "vegan") =
          (retry_trace
             [Message "user" (queries_prompt (tuple_of "vegan"))] 2 ++
             [EPrint ("Error generating queries for tuple: " +:+ str_exn e)],
           Returned []) ∧
        provider_calls
          (generate_queries_for_tuple always_fails (tuple_of "vegan")).1 = 3)
  ∧
  (∃ k, k < 3 ∧
        generate_queries_for_tuple (fails_then 1 "q1;q2")
          (tuple_of "vegan") =
        (retry_trace [Message "user" (queries_prompt (tuple_of "vegan"))] k,
         Returned ["q1"; "q2"])).
Proof.
  destruct (generate_queries_for_tuple_outcome always_fails
              (tuple_of "vegan")) as (_ & _ & Hno).
  destruct (generate_queries_for_tuple_outcome (fails_then 1 "q1;q2")
              (tuple_of "vegan")) as (_ & Hyes & _).
  split.
  - apply Hno. intros j Hj. eexists; reflexivity.
  - apply (Hyes {| queries := ["q1"; "q2"] |}).
    exists 1. split_and!; [lia| |reflexivity].
    intros j Hj. assert (j = 0) as -> by lia. eexists; reflexivity.
Defined.

Lemma category_generators_outcome_witness :
  (generate_ambiguous_queries (fails_then 0 "m1;m2;m3;m4") 2).2 =
    Returned ["m1"; "m2"; "m3"; "m4"] ∧
  (generate_adversarial_queries (fails_then 0 "m1;m2;m3;m4") 2).2 =
    Returned ["m1"; "m2"; "m3"; "m4"] ∧
  ∃ e, generate_ambiguous_queries always_fails 15 =
         (retry_trace [Message "user" (ambiguous_prompt 15)] 2 ++
            [EPrint ("Error generating ambiguous queries: " +:+ str_exn e)],
          Returned []).
Proof.
  destruct (category_generators_outcome (fails_then 0 "m1;m2;m3;m4") 2)
    as (_ & _ & Hyes & _).
  destruct (category_generators_outcome always_fails 15)
    as (_ & _ & _ & Hno).
  destruct (Hyes {| queries := ["m1"; "m2"; "m3"; "m4"] |})
    as (Hamb & Hadv & _).
  { exists 0. split_and!; [lia| |reflexivity]. intros j Hj. lia. }
  destruct Hno as (e & _ & Hrun & _).
  { intros j Hj. eexists; reflexivity. }
  split_and!; [exact Hamb|exact Hadv|]. by exists e.
Defined.

Lemma generate_dimension_tuples_failure_witness :
  ∃ e, generate_dimension_tuples always_fails =
         (retry_trace [Message "user" tuples_prompt] 2 ++
            [EPrint ("Error generating dimension tuples: " +:+ str_exn e)],
          Returned []) ∧
       provider_calls (generate_dimension_tuples always_fails).1 = 3.
Proof.
  destruct (generate_dimension_tuples_failure always_fails)
    as (_ & Hno & _).
  destruct Hno as (e & _ & Hrun & Hcalls).
  { intros j Hj. eexists; reflexivity. }
  by exists e.
Defined.

Lemma dedup_tuples_idempotent_witness :
  dedup_tuples (tuple_of <$> ["vegan"; "keto"]) =
  tuple_of <$> ["vegan"; "keto"].
Proof.
  destruct (dedup_tuples_idempotent (tuple_of <$> ["vegan"; "keto"]))
    as (_ & Hfix & _).
  apply Hfix. apply NoDup_cons. split; [|apply NoDup_singleton].
  intros Hin. apply list_elem_of_singleton in Hin. discriminate Hin.
Defined.

Lemma fan_out_order_independent_witness :
  let task := λ i t,
    generate_queries_for_tuple (queries_completion Mock.env i) t in
  let dimension_tuples := tuple_of <$> ["vegan"; "keto"] in
  ∃ records1 records2,
    (generate_queries_parallel_with task dimension_tuples [1; 0]).2 =
      Returned records1 ∧
    (generate_queries_parallel_with task dimension_tuples [0; 1]).2 =
      Returned records2 ∧
    length records1 = length records2 ∧
    id <$> records1 = id <$> records2 ∧
    (λ q, (query q, dimension_tuple q, query_type q)) <$> records1 ≡ₚ
    (λ q, (query q, dimension_tuple q, query_type q)) <$> records2.
Proof.
  intros task dimension_tuples.
  apply (fan_out_order_independent task dimension_tuples [1; 0] [0; 1]).
  apply perm_swap.
Defined.

Lemma generate_queries_parallel_calls_witness :
  let run :=
    generate_queries_parallel (queries_completion Mock.env)
      (tuple_of <$> ["vegan"; "keto"]) [1; 0] in
  2 ≤ provider_calls run.1 ∧ provider_calls run.1 ≤ 6 ∧
  fs_events run.1 = [].
Proof.
  exact (generate_queries_parallel_calls (queries_completion Mock.env)
           (tuple_of <$> ["vegan"; "keto"]) [1; 0] (perm_swap 0 1 [])).
Defined.

(** Two calls one second apart, for the directory [out]. *)
Lemma get_output_csv_path_distinct_witness :
  ∃ path1 path2,
    get_output_csv_path (now Mock.env) "queries" (Some (AsStr "out")) "csv" =
      ([EMkdir (parent path1)], Returned path1) ∧
    get_output_csv_path
      {| year := 2025; month := 1; day := 1;
         hour := 12; minute := 0; second := 1 |}
      "queries" (Some (AsStr "out")) "csv" =
      ([EMkdir (parent path2)], Returned path2) ∧
    str_path (parent path1) = "out" ∧
    str_path path1 = "out/queries_20250101_120000.csv" ∧
    str_path path2 = "out/queries_20250101_120001.csv" ∧
    str_path path1 ≠ str_path path2.
Proof.
  destruct (get_output_csv_path_distinct (now Mock.env)
              {| year := 2025; month := 1; day := 1;
                 hour := 12; minute := 0; second := 1 |}
              "queries" (Some (AsStr "out")) "csv" eq_refl eq_refl)
    as (path1 & path2 & Hrun1 & Hrun2 & Hparent & _ & Hname1 & Hname2
        & _ & Hne).
  { vm_compute. discriminate. }
  exists path1, path2. split_and!; [exact Hrun1|exact Hrun2|..|exact Hne].
  - by rewrite Hparent.
  - vm_compute in Hrun1. by injection Hrun1 as _ <-.
  - vm_compute in Hrun2. by injection Hrun2 as _ <-.
Defined.

(** In a name with a slash the part before it is a directory, which
    [get_output_csv_path] creates as well; the empty string names the
    working directory. *)
Example get_output_csv_path_nested :
  get_output_csv_path (now Mock.env) "sub/queries" (Some (AsStr "out")) "csv"
  = ([EMkdir (Path_of_str "out/sub")],
     Returned (Path_of_str "out/sub/queries_20250101_120000.csv")).
Proof. vm_compute. reflexivity. Qed.

Example get_output_csv_path_working_directory :
  ∃ path,
    get_output_csv_path (now Mock.env) "queries" (Some (AsStr "")) "csv" =
      ([EMkdir (parent path)], Returned path) ∧
    str_path (parent path) = "." ∧
    str_path path = "queries_20250101_120000.csv".
Proof.
  exists (Path_of_str "queries_20250101_120000.csv").
  split_and!; vm_compute; reflexivity.
Qed.

Lemma main_provider_calls_witness :
  main Mock.env_no_api_key =
    ([EPrint "Error: OPENAI_API_KEY environment variable not set."],
     Returned ExitNoApiKey) ∧
  provider_calls (main Mock.env_no_api_key).1 = 0 ∧
  fs_events (main Mock.env_no_api_key).1 = [].
Proof.
  exact (proj2 (main_provider_calls Mock.env_no_api_key) eq_refl).
Defined.

Lemma main_no_records_witness :
  fs_events (main Mock.env_no_queries).1 = [EMkdir script_dir] ∧
  provider_calls (main Mock.env_no_queries).1 = 13.
Proof.
  split; [|vm_compute; reflexivity].
  refine (proj1 (proj2 (proj2 (proj2
            (main_no_records Mock.env_no_queries [] [] [] _))))).
  vm_compute; reflexivity.
Defined.

Lemma main_file_rows_witness :
  ∃ rows,
    fs_events (main Mock.env).1 =
      [EMkdir script_dir; EToCsv (output_path Mock.env) rows] ∧
    str_path (parent (output_path Mock.env)) = "homeworks/hw2" ∧
    name (output_path Mock.env) =
      "synthetic_queries_for_analysis_20250101_120000.csv" ∧
    length rows = 12 ∧
    col_query_type <$> rows ≡ₚ
      replicate 6 "regular" ++ replicate 4 "ambiguous" ++
      replicate 2 "adversarial" ∧
    NoDup (col_id <$> rows).
Proof.
  assert (∃ regular ambiguous adversarial all_queries,
            (main Mock.env).2 =
              Returned (ExitDone regular ambiguous adversarial all_queries) ∧
            all_queries ≠ [] ∧
            length regular = 6 ∧ length ambiguous = 4 ∧
            length adversarial = 2)
    as (regular & ambiguous & adversarial & all_queries
        & Hdone & Hne & Hr & Ha & Hd).
  { eexists _, _, _, _. split; [vm_compute; reflexivity|].
    split_and!; [discriminate|reflexivity..]. }
  destruct (main_file_rows Mock.env _ _ _ _ Hdone Hne)
    as (rows & Hfs & Hparent & Hname & Hlen & Htypes & Hids & _).
  exists rows. rewrite Hr, Ha, Hd in Hlen, Htypes.
  split_and!; [exact Hfs| | |exact Hlen|exact Htypes|exact Hids].
  - by rewrite Hparent.
  - by rewrite Hname.
Defined.

Lemma main_stages_in_order_witness :
  ∃ t1 dimension_tuples t2 t3 t4 regular raw_amb raw_adv,
    generate_dimension_tuples (tuples_completion Mock.env) =
      (t1, Returned dimension_tuples) ∧
    main Mock.env =
      (done_trace Mock.env t1 t2 t3 t4 (length dimension_tuples)
         regular (ambiguous_records raw_amb) (adversarial_records raw_adv)
         (shuffle (randbelow Mock.env)
            (regular ++ ambiguous_records raw_amb ++
             adversarial_records raw_adv)),
       Returned
         (ExitDone regular (ambiguous_records raw_amb)
            (adversarial_records raw_adv)
            (shuffle (randbelow Mock.env)
               (regular ++ ambiguous_records raw_amb ++
                adversarial_records raw_adv)))).
Proof.
  assert (∃ t1 dts, generate_dimension_tuples (tuples_completion Mock.env) =
                      (t1, Returned dts) ∧ dts ≠ [])
    as (t1 & dts & Hgen & Hne).
  { eexists _, _. split; [vm_compute; reflexivity|discriminate]. }
  destruct (main_stages_in_order Mock.env t1 dts eq_refl Hgen Hne)
    as (t2 & t3 & t4 & regular & raw_amb & raw_adv & _ & _ & _ & Hrun & _).
  exists t1, dts, t2, t3, t4, regular, raw_amb, raw_adv.
  split; [exact Hgen|exact Hrun].
Defined.

End Hw2Facts.

Module BackendFacts.
Import Py Backend.

Section utils_facts.
Context `{External}.

Lemma needs_system_prompt_spec msgs :
  needs_system_prompt msgs = true ↔
  msgs = [] ∨ ∃ m rest, msgs = m :: rest ∧ role m ≠ "system".
Proof.
  destruct msgs as [|m rest]; cbn.
  - naive_solver.
  - rewrite bool_decide_eq_true. naive_solver.
Qed.

Lemma alloc_lookup v (h : store) :
  (alloc v h).2 !! (alloc v h).1 = Some v.
Proof. unfold alloc. cbn. apply lookup_insert_eq. Qed.

Lemma alloc_fresh v (h : store) : (alloc v h).1 ∉ dom h.
Proof. unfold alloc. cbn. apply is_fresh. Qed.

Lemma alloc_frame v (h : store) a :
  a ∈ dom h → (alloc v h).2 !! a = h !! a.
Proof.
  intros Ha. unfold alloc. cbn. apply lookup_insert_ne.
  intros <-. by apply (is_fresh (dom h)).
Qed.

(** The function step by step, for a bound argument. *)
Lemma get_agent_response_unfold completion messages (h : store) msgs :
  h !! messages = Some msgs →
  let h1 :=
    if needs_system_prompt msgs
    then (alloc (Message "system" SYSTEM_PROMPT :: msgs) h).2 else h in
  get_agent_response completion messages h =
  match completion (current_conversation msgs) with
  | Raises e => (Raised e, h1)
  | Responds body =>
      let new :=
        alloc (current_conversation msgs ++
               [Message "assistant" (strip body)]) h1 in
      (Returned new.1, new.2)
  end.
Proof.
  intros Hmsgs h1. subst h1.
  unfold get_agent_response, current_conversation. rewrite Hmsgs.
  destruct (needs_system_prompt msgs).
  - cbn [app]. unfold alloc at 1 3. rewrite lookup_insert_eq.
    by destruct (completion _).
  - rewrite Hmsgs. by destruct (completion _).
Qed.

End utils_facts.

(** C9.  For a conversation [msgs], let [current] be [msgs] itself when it
    starts with a system entry, and [msgs] with a system entry carrying
    [SYSTEM_PROMPT] put in front when it is empty or starts with another
    role.  The provider is called with [current]; when it answers,
    [get_agent_response] returns [current] followed by exactly one entry,
    of role "assistant", holding the stripped answer.  (When the provider
    raises, so does the function.) *)
Theorem get_agent_response_extends `{External}
    (completion : list message → outcome) (messages : addr) (h : store)
    (msgs : list message) :
  h !! messages = Some msgs →
  let current := current_conversation msgs in
  (msgs = [] ∨ (∃ m rest, msgs = m :: rest ∧ role m ≠ "system") →
   current = Message "system" SYSTEM_PROMPT :: msgs) ∧
  ((∃ m rest, msgs = m :: rest ∧ role m = "system") → current = msgs) ∧
  (∀ body,
     completion current = Responds body →
     ∃ updated_messages h',
       get_agent_response completion messages h =
         (Returned updated_messages, h') ∧
       h' !! updated_messages =
         Some (current ++ [Message "assistant" (strip body)])) ∧
  (∀ e,
     completion current = Raises e →
     (get_agent_response completion messages h).1 = Raised e).
Proof.
  intros Hmsgs current. subst current. split_and!.
  - intros Hneeds%needs_system_prompt_spec.
    unfold current_conversation. by rewrite Hneeds.
  - intros (m & rest & -> & Hrole). unfold current_conversation. cbn.
    by rewrite bool_decide_eq_false_2 by (by intros []).
  - intros body Hbody.
    rewrite (get_agent_response_unfold _ _ _ msgs Hmsgs). cbv zeta.
    rewrite Hbody. eexists _, _. split; [reflexivity|].
    apply alloc_lookup.
  - intros e He.
    rewrite (get_agent_response_unfold _ _ _ msgs Hmsgs). cbv zeta.
    by rewrite He.
Qed.

(** C10.  [get_agent_response] leaves its argument as it found it: after
    the call, whether it returns or raises, the caller's list holds the
    same entries as before, and so does every list that existed before the
    call.  The list returned is a new object, never the argument itself. *)
Theorem get_agent_response_frame `{External}
    (completion : list message → outcome) (messages : addr) (h : store)
    (msgs : list message) :
  h !! messages = Some msgs →
  let run := get_agent_response completion messages h in
  run.2 !! messages = Some msgs ∧
  (∀ a, a ∈ dom h → run.2 !! a = h !! a) ∧
  (∀ updated_messages,
     run.1 = Returned updated_messages →
     (updated_messages ∉ dom h) ∧ updated_messages ≠ messages).
Proof.
  intros Hmsgs run. subst run.
  rewrite (get_agent_response_unfold _ _ _ msgs Hmsgs). cbv zeta.
  set (h1 := if needs_system_prompt msgs
             then (alloc (Message "system" SYSTEM_PROMPT :: msgs) h).2
             else h).
  assert (Hin : messages ∈ dom h) by (apply elem_of_dom; eauto).
  assert (Hframe1 : ∀ a, a ∈ dom h → h1 !! a = h !! a).
  { intros a Ha. subst h1. destruct (needs_system_prompt msgs); [|done].
    by apply alloc_frame. }
  assert (Hdom1 : dom h ⊆ dom h1).
  { intros a Ha. apply elem_of_dom. rewrite Hframe1 by done.
    by apply elem_of_dom. }
  assert (Hframe : ∀ a, a ∈ dom h →
            (match completion (current_conversation msgs) with
             | Raises e => (Raised e, h1)
             | Responds body =>
                 (Returned
                    (alloc (current_conversation msgs ++
                            [Message "assistant" (strip body)]) h1).1,
                  (alloc (current_conversation msgs ++
                          [Message "assistant" (strip body)]) h1).2)
             end).2 !! a = h !! a).
  { intros a Ha. destruct (completion _); cbn [snd]; [by apply Hframe1|].
    rewrite alloc_frame by (by apply Hdom1). by apply Hframe1. }
  split_and!.
  - by rewrite Hframe.
  - exact Hframe.
  - intros updated. destruct (completion _); cbn [fst]; [done|].
    intros [= <-].
    assert ((alloc (current_conversation msgs ++
                    [Message "assistant" (strip body)]) h1).1 ∉ dom h)
      as Hfresh.
    { intros Hold. by apply Hdom1, alloc_fresh in Hold. }
    split; [done|]. intros Heq. apply Hfresh.
    change ((alloc ?v h1).1) with (fresh (dom h1)). by rewrite Heq.
Qed.

(** ** Further properties: conversations over several turns *)

Section turn_facts.
Context `{External}.

Lemma current_conversation_head msgs :
  ∃ m rest, current_conversation msgs = m :: rest ∧ role m = "system".
Proof.
  unfold current_conversation.
  destruct (needs_system_prompt msgs) eqn:Hneeds; [by eexists _, _|].
  destruct msgs as [|m rest]; [done|]. cbn in Hneeds.
  apply bool_decide_eq_false in Hneeds. exists m, rest. split; [done|].
  by apply dec_stable.
Qed.

Lemma current_conversation_stable msgs extra :
  current_conversation (current_conversation msgs ++ extra) =
  current_conversation msgs ++ extra.
Proof.
  destruct (current_conversation_head msgs) as (m & rest & -> & Hrole).
  unfold current_conversation at 1. cbn.
  by rewrite bool_decide_eq_false_2 by (by intros []).
Qed.

End turn_facts.

(** X12.  What [get_agent_response] returns always starts with a system
    entry and ends with the assistant's entry, and is one entry longer
    than its input, or two when the system entry had to be put in front.
    Given back to the function, with or without further entries behind,
    it is taken as it is: the system entry is never put in front twice. *)
Theorem get_agent_response_system_first `{External}
    (completion : list message → outcome) (messages : addr) (h : store)
    (msgs : list message) (body : string) :
  h !! messages = Some msgs →
  completion (current_conversation msgs) = Responds body →
  ∃ updated_messages h' out,
    get_agent_response completion messages h =
      (Returned updated_messages, h') ∧
    h' !! updated_messages = Some out ∧
    (∃ m rest, out = m :: rest ∧ role m = "system") ∧
    last out = Some (Message "assistant" (strip body)) ∧
    length out =
      length msgs + (if needs_system_prompt msgs then 2 else 1) ∧
    needs_system_prompt out = false ∧
    (∀ extra, current_conversation (out ++ extra) = out ++ extra).
Proof.
  intros Hmsgs Hbody.
  rewrite (get_agent_response_unfold _ _ _ msgs Hmsgs). cbv zeta.
  rewrite Hbody. eexists _, _, _. split; [reflexivity|].
  split; [apply alloc_lookup|].
  destruct (current_conversation_head msgs) as (m & rest & Hcur & Hrole).
  split_and!.
  - rewrite Hcur. by exists m, (rest ++ [Message "assistant" (strip body)]).
  - apply last_snoc.
  - rewrite length_app. unfold current_conversation.
    destruct (needs_system_prompt msgs); cbn; lia.
  - rewrite Hcur. cbn. by rewrite bool_decide_eq_false_2 by (by intros []).
  - intros extra. rewrite <- (assoc_L (++)).
    apply current_conversation_stable.
Qed.

(** X13.  Two turns compose.  When the caller takes the list returned by
    a first call, adds its next entry behind it in a new list and calls
    again, the second call returns the conversation of the first call,
    the caller's entry and the second answer: one system entry in front,
    the two answers in order.  The list of the first call's argument is
    still what it was. *)
Theorem get_agent_response_two_turns `{External}
    (completion1 completion2 : list message → outcome)
    (messages : addr) (h : store) (msgs : list message)
    (body1 body2 : string) (next : message) :
  h !! messages = Some msgs →
  let turn1 :=
    current_conversation msgs ++ [Message "assistant" (strip body1)] in
  completion1 (current_conversation msgs) = Responds body1 →
  completion2 (turn1 ++ [next]) = Responds body2 →
  ∃ returned1 h1 returned2 h2,
    get_agent_response completion1 messages h = (Returned returned1, h1) ∧
    h1 !! returned1 = Some turn1 ∧
    get_agent_response completion2
      (alloc (turn1 ++ [next]) h1).1 (alloc (turn1 ++ [next]) h1).2 =
      (Returned returned2, h2) ∧
    h2 !! returned2 =
      Some (current_conversation msgs ++
            [Message "assistant" (strip body1); next;
             Message "assistant" (strip body2)]) ∧
    h2 !! messages = Some msgs.
Proof.
  intros Hmsgs turn1 Hbody1 Hbody2.
  rewrite (get_agent_response_unfold _ _ _ msgs Hmsgs). cbv zeta.
  rewrite Hbody1. eexists _, _, _, _. split; [reflexivity|].
  split; [apply alloc_lookup|].
  fold turn1.
  set (h0 := if needs_system_prompt msgs
             then (alloc (Message "system" SYSTEM_PROMPT :: msgs) h).2
             else h).
  set (h1 := (alloc turn1 h0).2).
  assert (messages ∈ dom h) as Hin by (apply elem_of_dom; eauto).
  assert (h0 !! messages = Some msgs) as Hmsgs0.
  { subst h0. destruct (needs_system_prompt msgs); [|done].
    by rewrite alloc_frame. }
  assert (h1 !! messages = Some msgs) as Hmsgs1.
  { subst h1. rewrite alloc_frame; [done|]. apply elem_of_dom; eauto. }
  assert (current_conversation (turn1 ++ [next]) = turn1 ++ [next]) as Hcur.
  { subst turn1. rewrite <- (assoc_L (++)).
    apply current_conversation_stable. }
  assert (needs_system_prompt (turn1 ++ [next]) = false) as Hneeds.
  { destruct (needs_system_prompt (turn1 ++ [next])) eqn:Hn; [|done].
    unfold current_conversation in Hcur. rewrite Hn in Hcur.
    apply (f_equal length) in Hcur. cbn in Hcur. lia. }
  rewrite (get_agent_response_unfold _ _ _ (turn1 ++ [next]))
    by apply alloc_lookup.
  cbv zeta. rewrite Hcur, Hbody2, Hneeds.
  split; [reflexivity|]. cbn [fst snd]. split.
  - rewrite alloc_lookup. subst turn1.
    by rewrite <- !(assoc_L (++)).
  - assert ((alloc (turn1 ++ [next]) h1).2 !! messages = Some msgs)
      as Hmsgs2.
    { rewrite alloc_frame; [done|]. apply elem_of_dom; eauto. }
    rewrite alloc_frame; [done|]. apply elem_of_dom; eauto.
Qed.

(** ** The statements above, on a mocked conversation *)

Import Backend.Mock.

Lemma get_agent_response_extends_witness :
  ∃ updated_messages h',
    get_agent_response (λ _, Responds "Try a lentil soup.") 0
      {[0 := [Message "user" "dinner?"]]} =
      (Returned updated_messages, h') ∧
    h' !! updated_messages =
      Some [Message "system" SYSTEM_PROMPT; Message "user" "dinner?";
            Message "assistant" "Try a lentil soup."].
Proof.
  destruct (get_agent_response_extends
              (λ _, Responds "Try a lentil soup.") 0
              {[0 := [Message "user" "dinner?"]]}
              [Message "user" "dinner?"] (lookup_singleton_eq 0 _))
    as (_ & _ & Hanswer & _).
  exact (Hanswer "Try a lentil soup." eq_refl).
Defined.

Lemma get_agent_response_frame_witness :
  (get_agent_response (λ _, Responds "Try a lentil soup.") 0
     {[0 := [Message "system" "Be brief."; Message "user" "dinner?"]]}).2
    !! 0 =
  Some [Message "system" "Be brief."; Message "user" "dinner?"].
Proof.
  exact (proj1 (get_agent_response_frame
                  (λ _, Responds "Try a lentil soup.") 0
                  {[0 := [Message "system" "Be brief.";
                          Message "user" "dinner?"]]}
                  [Message "system" "Be brief."; Message "user" "dinner?"]
                  (lookup_singleton_eq 0 _))).
Defined.

Lemma get_agent_response_system_first_witness :
  ∃ updated_messages h' out,
    get_agent_response (λ _, Responds "Try a lentil soup.") 0
      {[0 := [Message "user" "dinner?"]]} =
      (Returned updated_messages, h') ∧
    h' !! updated_messages = Some out ∧
    length out = 3 ∧
    needs_system_prompt out = false.
Proof.
  destruct (get_agent_response_system_first
              (λ _, Responds "Try a lentil soup.") 0
              {[0 := [Message "user" "dinner?"]]}
              [Message "user" "dinner?"] "Try a lentil soup."
              (lookup_singleton_eq 0 _) eq_refl)
    as (l & h' & out & Hrun & Hout & _ & _ & Hlen & Hneeds & _).
  by exists l, h', out.
Defined.

Lemma get_agent_response_two_turns_witness :
  ∃ returned1 h1 returned2 h2,
    get_agent_response (λ _, Responds "Try a lentil soup.") 0
      {[0 := [Message "user" "dinner?"]]} = (Returned returned1, h1) ∧
    get_agent_response (λ _, Responds "Red lentils.")
      (alloc
         ([Message "system" SYSTEM_PROMPT; Message "user" "dinner?";
           Message "assistant" "Try a lentil soup."] ++
          [Message "user" "which lentils?"]) h1).1
      (alloc
         ([Message "system" SYSTEM_PROMPT; Message "user" "dinner?";
           Message "assistant" "Try a lentil soup."] ++
          [Message "user" "which lentils?"]) h1).2 =
      (Returned returned2, h2) ∧
    h2 !! returned2 =
      Some [Message "system" SYSTEM_PROMPT; Message "user" "dinner?";
            Message "assistant" "Try a lentil soup.";
            Message "user" "which lentils?";
            Message "assistant" "Red lentils."] ∧
    h2 !! 0 = Some [Message "user" "dinner?"].
Proof.
  destruct (get_agent_response_two_turns
              (λ _, Responds "Try a lentil soup.")
              (λ _, Responds "Red lentils.") 0
              {[0 := [Message "user" "dinner?"]]}
              [Message "user" "dinner?"]
              "Try a lentil soup." "Red lentils."
              (Message "user" "which lentils?")
              (lookup_singleton_eq 0 _) eq_refl eq_refl)
    as (r1 & h1 & r2 & h2 & Hrun1 & _ & Hrun2 & Hout & Hframe).
  by exists r1, h1, r2, h2.
Defined.

End BackendFacts.
